(** * RenderEngineThreaded: a single-worker active object

    Interleaving model of [libs/renderengine/threaded/RenderEngineThreaded.cpp].

    The C++ object owns one worker thread ([threadMain]), a queue of closures
    ([mFunctionCalls]) guarded by [mThreadMutex] / [mCondition], and an
    initialisation flag ([mIsInitialized]) guarded by [mInitializedMutex] /
    [mInitializedCondition].  Every thread is modelled by a program counter
    that names the source line it is about to execute; one transition of the
    system is one thread executing that line.  Blocking primitives (mutex
    acquisition, condition waits, [future::get], [thread::join]) are
    transitions that are disabled until the primitive can return. *)

From stdpp Require Import base list strings numbers.

Set Default Proof Using "Type".
Open Scope Z_scope.

(** ** The wrapped resource *)

Definition status_t := Z.
Definition promise := nat.

Record Rect := mkRect { rect_left : Z; rect_top : Z; rect_right : Z; rect_bottom : Z }.
Record Size := mkSize { size_width : Z; size_height : Z }.

(** [renderengine::RenderEngine]: the interface the dispatcher forwards to.
    A method that mutates the instance returns the new instance state; the
    argument types whose declarations live in other headers are members of
    the interface. *)
Class RenderEngine := {
  instance : Type;
  DrawRequest : Type;   (* display, layers, buffer, useFramebufferCache, fences *)
  CleanupMode : Type;
  GraphicBuffer : Type;
  re_primeCache : instance → instance;
  re_dump : string → instance → instance * string;
  re_genTextures : N → N → instance → instance;
  re_deleteTextures : N → N → instance → instance;
  re_mapExternalTextureBuffer : GraphicBuffer → bool → instance → instance;
  re_unmapExternalTextureBuffer : GraphicBuffer → instance → instance;
  re_getMaxTextureSize : instance → N;
  re_getMaxViewportDims : instance → N;
  re_isProtected : instance → bool;
  re_supportsProtectedContent : instance → bool;
  re_useProtectedContext : bool → instance → instance * bool;
  re_cleanupPostRender : CleanupMode → instance → instance * bool;
  re_setViewportAndProjection : Rect → Rect → instance → instance;
  re_drawLayers : DrawRequest → instance → instance * status_t;
  re_cleanFramebufferCache : instance → instance;
  re_getContextPriority : instance → instance * Z;
  re_supportsBackgroundBlur : instance → bool;
  re_onPrimaryDisplaySizeChanged : Size → instance → instance;
}.

(** Thread identities: the worker ([mThread]), the thread that constructs and
    later destroys the dispatcher, and the caller threads. *)
Inductive tid := Worker | Owner | Caller (i : nat).

Global Instance tid_eq_dec : EqDecision tid.
Proof. solve_decision. Defined.

(** What travels through a [std::promise<T>]. *)
Inductive value :=
| V_void
| V_string (s : string)
| V_bool (b : bool)
| V_status (st : status_t)
| V_int (n : Z)
| V_size (n : N).

Section Dispatcher.
Context `{RE : RenderEngine}.

(** ** Tasks *)

(** One constructor per lambda pushed onto [mFunctionCalls], with its
    captures.  [resultPromise] is the promise on the caller's stack that the
    lambda captured by reference. *)
Inductive closure :=
| L_primeCache
| L_dump (resultPromise : promise) (result : string)
| L_genTextures (resultPromise : promise) (count names : N)
| L_deleteTextures (resultPromise : promise) (count names : N)
| L_mapExternalTextureBuffer (buffer : GraphicBuffer) (isRenderable : bool)
| L_unmapExternalTextureBuffer (buffer : GraphicBuffer)
| L_useProtectedContext (resultPromise : promise) (useProtectedContext : bool)
| L_cleanupPostRender (resultPromise : promise) (mode : CleanupMode)
| L_setViewportAndProjection (resultPromise : promise) (viewPort sourceCrop : Rect)
| L_drawLayers (resultPromise : promise) (req : DrawRequest)
| L_cleanFramebufferCache
| L_getContextPriority (resultPromise : promise)
| L_onPrimaryDisplaySizeChanged (size : Size).

(** The body of each lambda: the new instance state and, for the lambdas that
    end in [resultPromise.set_value], the promise and the value stored. *)
Definition call_closure (k : closure) (e : instance)
  : instance * option (promise * value) :=
  match k with
  | L_primeCache => (re_primeCache e, None)
  | L_dump p result =>
      let '(e', localResult) := re_dump result e in
      (e', Some (p, V_string localResult))
  | L_genTextures p count names => (re_genTextures count names e, Some (p, V_void))
  | L_deleteTextures p count names => (re_deleteTextures count names e, Some (p, V_void))
  | L_mapExternalTextureBuffer buffer isRenderable =>
      (re_mapExternalTextureBuffer buffer isRenderable e, None)
  | L_unmapExternalTextureBuffer buffer => (re_unmapExternalTextureBuffer buffer e, None)
  | L_useProtectedContext p b =>
      let '(e', returnValue) := re_useProtectedContext b e in
      (e', Some (p, V_bool returnValue))
  | L_cleanupPostRender p mode =>
      let '(e', returnValue) := re_cleanupPostRender mode e in
      (e', Some (p, V_bool returnValue))
  | L_setViewportAndProjection p viewPort sourceCrop =>
      (re_setViewportAndProjection viewPort sourceCrop e, Some (p, V_void))
  | L_drawLayers p req =>
      let '(e', status) := re_drawLayers req e in
      (e', Some (p, V_status status))
  | L_cleanFramebufferCache => (re_cleanFramebufferCache e, None)
  | L_getContextPriority p =>
      let '(e', priority) := re_getContextPriority e in
      (e', Some (p, V_int priority))
  | L_onPrimaryDisplaySizeChanged size => (re_onPrimaryDisplaySizeChanged size e, None)
  end.

(** The promise a lambda captured, if any. *)
Definition promise_of (k : closure) : option promise :=
  match k with
  | L_dump p _ | L_genTextures p _ _ | L_deleteTextures p _ _
  | L_useProtectedContext p _ | L_cleanupPostRender p _
  | L_setViewportAndProjection p _ _ | L_drawLayers p _
  | L_getContextPriority p => Some p
  | L_primeCache | L_mapExternalTextureBuffer _ _ | L_unmapExternalTextureBuffer _
  | L_cleanFramebufferCache | L_onPrimaryDisplaySizeChanged _ => None
  end.

(** ** Public operations *)

Inductive request :=
| waitUntilInitialized
| primeCache
| dump (result : string)
| genTextures (count names : N)
| deleteTextures (count names : N)
| mapExternalTextureBuffer (buffer : GraphicBuffer) (isRenderable : bool)
| unmapExternalTextureBuffer (buffer : GraphicBuffer)
| getMaxTextureSize
| getMaxViewportDims
| isProtected
| supportsProtectedContent
| useProtectedContext (useProtectedContext : bool)
| cleanupPostRender (mode : CleanupMode)
| setViewportAndProjection (viewPort sourceCrop : Rect)
| drawLayers (req : DrawRequest)
| cleanFramebufferCache
| getContextPriority
| supportsBackgroundBlur
| onPrimaryDisplaySizeChanged (size : Size).

(** The lambda a method pushes; [p] is the method's local [resultPromise].
    [None] for the methods that push nothing. *)
Definition pushed_closure (r : request) (p : promise) : option closure :=
  match r with
  | primeCache => Some L_primeCache
  | dump result => Some (L_dump p result)
  | genTextures count names => Some (L_genTextures p count names)
  | deleteTextures count names => Some (L_deleteTextures p count names)
  | mapExternalTextureBuffer buffer isRenderable =>
      Some (L_mapExternalTextureBuffer buffer isRenderable)
  | unmapExternalTextureBuffer buffer => Some (L_unmapExternalTextureBuffer buffer)
  | useProtectedContext b => Some (L_useProtectedContext p b)
  | cleanupPostRender mode => Some (L_cleanupPostRender p mode)
  | setViewportAndProjection viewPort sourceCrop =>
      Some (L_setViewportAndProjection p viewPort sourceCrop)
  | drawLayers req => Some (L_drawLayers p req)
  | cleanFramebufferCache => Some L_cleanFramebufferCache
  | getContextPriority => Some (L_getContextPriority p)
  | onPrimaryDisplaySizeChanged size => Some (L_onPrimaryDisplaySizeChanged size)
  | waitUntilInitialized | getMaxTextureSize | getMaxViewportDims | isProtected
  | supportsProtectedContent | supportsBackgroundBlur => None
  end.

(** Methods that declare a local [std::promise] / [std::future] pair. *)
Definition declares_promise (r : request) : bool :=
  match r with
  | dump _ | genTextures _ _ | deleteTextures _ _ | useProtectedContext _
  | cleanupPostRender _ | setViewportAndProjection _ _ | drawLayers _
  | getContextPriority => true
  | _ => false
  end.

(** The value an accessor reads through [mRenderEngine->...]. *)
Definition direct_read (r : request) (e : instance) : option value :=
  match r with
  | getMaxTextureSize => Some (V_size (re_getMaxTextureSize e))
  | getMaxViewportDims => Some (V_size (re_getMaxViewportDims e))
  | isProtected => Some (V_bool (re_isProtected e))
  | supportsProtectedContent => Some (V_bool (re_supportsProtectedContent e))
  | supportsBackgroundBlur => Some (V_bool (re_supportsBackgroundBlur e))
  | _ => None
  end.

(** ** Program counters *)

(** [threadMain]. *)
Inductive wpc :=
| W_unborn                (* std::thread not yet constructed *)
| W_factory               (* l.72  mRenderEngine = factory() *)
| W_lock                  (* l.74  unique_lock lock(mThreadMutex) *)
| W_lockInit              (* l.78  unique_lock lock(mInitializedMutex) *)
| W_setInit               (* l.79  mIsInitialized = true *)
| W_unlockInit            (* l.80  end of scope *)
| W_notifyAll             (* l.81  mInitializedCondition.notify_all() *)
| W_loop                  (* l.83  while (mRunning) *)
| W_empty                 (* l.84  if (!mFunctionCalls.empty()) front, pop *)
| W_call (task : closure) (* l.87  inside task( *mRenderEngine ) *)
| W_pred                  (* l.89  wait predicate, lock held *)
| W_sleep                 (* l.89  blocked in mCondition.wait, lock released *)
| W_wake                  (* l.89  woken, re-acquiring the lock *)
| W_reset                 (* l.95  mRenderEngine.reset() *)
| W_return                (* l.96  unique_lock destructor *)
| W_done.                 (* thread function has returned *)

(** Constructor and destructor of the dispatcher. *)
Inductive opc :=
| O_ctorLock              (* l.46  lock_guard lockThread(mThreadMutex) *)
| O_spawn                 (* l.47  mThread = std::thread(threadMain) *)
| O_ctorUnlock            (* l.48  end of constructor *)
| O_alive                 (* the object is in use *)
| O_dtorLock              (* l.52  lock_guard lock(mThreadMutex) *)
| O_clear                 (* l.53  mRunning = false *)
| O_notify                (* l.54  mCondition.notify_one() *)
| O_dtorUnlock            (* l.55  end of scope *)
| O_join                  (* l.58  mThread.join() *)
| O_done.                 (* destructor has returned *)

(** A caller thread inside (or between) public methods.  [r] is the method
    being executed. *)
Inductive cpc :=
| C_idle
| C_lock (r : request) (k : closure)     (* lock_guard lock(mThreadMutex) *)
| C_push (r : request) (k : closure)     (* mFunctionCalls.push(k) *)
| C_unlock (r : request) (k : closure)   (* end of the lock_guard scope *)
| C_notify (r : request) (k : closure)   (* mCondition.notify_one() *)
| C_get (r : request) (p : promise)      (* resultFuture.get() / wait() *)
| C_initLock (r : request)               (* l.99  unique_lock lock(mInitializedMutex) *)
| C_initPred (r : request)               (* l.100 wait predicate, lock held *)
| C_initSleep (r : request)              (* l.100 blocked in the wait *)
| C_initWake (r : request)               (* l.100 woken, re-acquiring *)
| C_initUnlock (r : request)             (* l.101 unique_lock destructor *)
| C_read (r : request)                   (* return mRenderEngine->...() *)
| C_readLock (r : request)               (* l.209 lock_guard lock(mThreadMutex) *)
| C_readLocked (r : request)             (* l.210 mRenderEngine->isProtected() *)
| C_readUnlock (r : request) (v : value). (* l.211 lock_guard destructor *)

(** ** System state *)

(** Begin and end of a task call on the worker, in real-time order. *)
Inductive exec_event := X_begin (k : closure) | X_end (k : closure).

(** Steps of the destructor; [D_clear] remembers who held [mThreadMutex]
    when [mRunning] was written. *)
Inductive dtor_event := D_clear (holder : option tid) | D_notify | D_join.

(** A completed public call. *)
Record ret := mkRet {
  r_caller : nat; r_request : request; r_channel : option promise; r_value : value }.

Record state := mkState {
  (* members of RenderEngineThreaded *)
  mRunning : bool;
  mIsInitialized : bool;
  mFunctionCalls : list closure;             (* front of the queue first *)
  mRenderEngine : option instance;           (* unique_ptr; None is null *)
  mThreadMutex : option tid;                 (* holder *)
  mInitializedMutex : option tid;            (* holder *)
  (* promises on callers' stacks, by allocation order; None is "not set" *)
  promises : list (option value);
  (* threads *)
  worker : wpc;
  owner : opc;
  callers : list cpc;
  (* history variables *)
  enqueued : list closure;                   (* in the order pushes completed *)
  timeline : list exec_event;
  executed : list (closure * instance);      (* task and the instance it ran on *)
  returned : list ret;
  dtor_log : list dtor_event;
}.

Definition set_mRunning b s := mkState
  b (mIsInitialized s) (mFunctionCalls s) (mRenderEngine s) (mThreadMutex s)
  (mInitializedMutex s) (promises s) (worker s) (owner s) (callers s)
  (enqueued s) (timeline s) (executed s) (returned s) (dtor_log s).
Definition set_mIsInitialized b s := mkState
  (mRunning s) b (mFunctionCalls s) (mRenderEngine s) (mThreadMutex s)
  (mInitializedMutex s) (promises s) (worker s) (owner s) (callers s)
  (enqueued s) (timeline s) (executed s) (returned s) (dtor_log s).
Definition set_mFunctionCalls q s := mkState
  (mRunning s) (mIsInitialized s) q (mRenderEngine s) (mThreadMutex s)
  (mInitializedMutex s) (promises s) (worker s) (owner s) (callers s)
  (enqueued s) (timeline s) (executed s) (returned s) (dtor_log s).
Definition set_mRenderEngine e s := mkState
  (mRunning s) (mIsInitialized s) (mFunctionCalls s) e (mThreadMutex s)
  (mInitializedMutex s) (promises s) (worker s) (owner s) (callers s)
  (enqueued s) (timeline s) (executed s) (returned s) (dtor_log s).
Definition set_mThreadMutex m s := mkState
  (mRunning s) (mIsInitialized s) (mFunctionCalls s) (mRenderEngine s) m
  (mInitializedMutex s) (promises s) (worker s) (owner s) (callers s)
  (enqueued s) (timeline s) (executed s) (returned s) (dtor_log s).
Definition set_mInitializedMutex m s := mkState
  (mRunning s) (mIsInitialized s) (mFunctionCalls s) (mRenderEngine s) (mThreadMutex s)
  m (promises s) (worker s) (owner s) (callers s)
  (enqueued s) (timeline s) (executed s) (returned s) (dtor_log s).
Definition set_promises ps s := mkState
  (mRunning s) (mIsInitialized s) (mFunctionCalls s) (mRenderEngine s) (mThreadMutex s)
  (mInitializedMutex s) ps (worker s) (owner s) (callers s)
  (enqueued s) (timeline s) (executed s) (returned s) (dtor_log s).
Definition set_worker w s := mkState
  (mRunning s) (mIsInitialized s) (mFunctionCalls s) (mRenderEngine s) (mThreadMutex s)
  (mInitializedMutex s) (promises s) w (owner s) (callers s)
  (enqueued s) (timeline s) (executed s) (returned s) (dtor_log s).
Definition set_owner o s := mkState
  (mRunning s) (mIsInitialized s) (mFunctionCalls s) (mRenderEngine s) (mThreadMutex s)
  (mInitializedMutex s) (promises s) (worker s) o (callers s)
  (enqueued s) (timeline s) (executed s) (returned s) (dtor_log s).
Definition set_callers cs s := mkState
  (mRunning s) (mIsInitialized s) (mFunctionCalls s) (mRenderEngine s) (mThreadMutex s)
  (mInitializedMutex s) (promises s) (worker s) (owner s) cs
  (enqueued s) (timeline s) (executed s) (returned s) (dtor_log s).
Definition set_enqueued l s := mkState
  (mRunning s) (mIsInitialized s) (mFunctionCalls s) (mRenderEngine s) (mThreadMutex s)
  (mInitializedMutex s) (promises s) (worker s) (owner s) (callers s)
  l (timeline s) (executed s) (returned s) (dtor_log s).
Definition set_timeline l s := mkState
  (mRunning s) (mIsInitialized s) (mFunctionCalls s) (mRenderEngine s) (mThreadMutex s)
  (mInitializedMutex s) (promises s) (worker s) (owner s) (callers s)
  (enqueued s) l (executed s) (returned s) (dtor_log s).
Definition set_executed l s := mkState
  (mRunning s) (mIsInitialized s) (mFunctionCalls s) (mRenderEngine s) (mThreadMutex s)
  (mInitializedMutex s) (promises s) (worker s) (owner s) (callers s)
  (enqueued s) (timeline s) l (returned s) (dtor_log s).
Definition set_returned l s := mkState
  (mRunning s) (mIsInitialized s) (mFunctionCalls s) (mRenderEngine s) (mThreadMutex s)
  (mInitializedMutex s) (promises s) (worker s) (owner s) (callers s)
  (enqueued s) (timeline s) (executed s) l (dtor_log s).
Definition set_dtor_log l s := mkState
  (mRunning s) (mIsInitialized s) (mFunctionCalls s) (mRenderEngine s) (mThreadMutex s)
  (mInitializedMutex s) (promises s) (worker s) (owner s) (callers s)
  (enqueued s) (timeline s) (executed s) (returned s) l.

(** ** Transitions *)

(** The [CreateInstanceFactory] handed to the constructor: what [factory()]
    returns. *)
Variable factory : instance.

(** Modelled from the spec: the member initialisers of RenderEngineThreaded.h
    (the header is not among the sources).  The worker starts in [Starting],
    "resource not yet constructed", the loop "continues while a running flag
    is true", and the barrier flag is unset until construction completes; the
    queue starts empty and both mutexes free.  [n] is the number of caller
    threads. *)
Definition init (n : nat) : state := {|
  mRunning := true; mIsInitialized := false; mFunctionCalls := [];
  mRenderEngine := None; mThreadMutex := None; mInitializedMutex := None;
  promises := []; worker := W_unborn; owner := O_ctorLock;
  callers := replicate n C_idle;
  enqueued := []; timeline := []; executed := []; returned := []; dtor_log := [] |}.

(** [mCondition.notify_one()]: the worker is the only thread that ever waits
    on [mCondition]. *)
Definition sleeping (w : wpc) : bool :=
  match w with
  | W_sleep => true
  | _ => false
  end.

Definition notify_one (s : state) : state :=
  if sleeping (worker s) then set_worker W_wake s else s.

(** [std::queue::empty]. *)
Definition empty (q : list closure) : bool :=
  match q with
  | [] => true
  | _ :: _ => false
  end.

(** The predicate of the wait on [mCondition] (l.90). *)
Definition work_or_stop (s : state) : bool :=
  negb (mRunning s) || negb (empty (mFunctionCalls s)).

(** [mInitializedCondition.notify_all()]. *)
Definition wake (c : cpc) : cpc :=
  match c with
  | C_initSleep r => C_initWake r
  | _ => c
  end.

Definition notify_all (s : state) : state := set_callers (wake <$> callers s) s.

(** [resultPromise.set_value(v)]. *)
Definition fulfil (out : option (promise * value)) (ps : list (option value))
  : list (option value) :=
  match out with
  | Some (p, v) => <[p := Some v]> ps
  | None => ps
  end.

(** One step of [threadMain]. *)
Definition step_worker (s : state) : option state :=
  match worker s with
  | W_unborn => None
  | W_factory => Some (set_worker W_lock (set_mRenderEngine (Some factory) s))
  | W_lock =>
      match mThreadMutex s with
      | None => Some (set_worker W_lockInit (set_mThreadMutex (Some Worker) s))
      | Some _ => None
      end
  | W_lockInit =>
      match mInitializedMutex s with
      | None => Some (set_worker W_setInit (set_mInitializedMutex (Some Worker) s))
      | Some _ => None
      end
  | W_setInit => Some (set_worker W_unlockInit (set_mIsInitialized true s))
  | W_unlockInit => Some (set_worker W_notifyAll (set_mInitializedMutex None s))
  | W_notifyAll => Some (set_worker W_loop (notify_all s))
  | W_loop => Some (set_worker (if mRunning s then W_empty else W_reset) s)
  | W_empty =>
      match mFunctionCalls s with
      | [] => Some (set_worker W_pred s)
      | task :: rest =>
          Some (set_worker (W_call task)
                  (set_timeline (timeline s ++ [X_begin task])
                     (set_mFunctionCalls rest s)))
      end
  | W_call task =>
      match mRenderEngine s with
      | None => None                       (* null dereference: no behaviour *)
      | Some e =>
          let '(e', out) := call_closure task e in
          Some (set_worker W_pred
                  (set_executed (executed s ++ [(task, e)])
                     (set_timeline (timeline s ++ [X_end task])
                        (set_promises (fulfil out (promises s))
                           (set_mRenderEngine (Some e') s)))))
      end
  | W_pred =>
      if work_or_stop s
      then Some (set_worker W_loop s)
      else Some (set_worker W_sleep (set_mThreadMutex None s))
  | W_sleep => None
  | W_wake =>
      match mThreadMutex s with
      | None => Some (set_worker W_pred (set_mThreadMutex (Some Worker) s))
      | Some _ => None
      end
  | W_reset => Some (set_worker W_return (set_mRenderEngine None s))
  | W_return => Some (set_worker W_done (set_mThreadMutex None s))
  | W_done => None
  end.

(** One step of the constructor / destructor. *)
Definition step_owner (s : state) : option state :=
  match owner s with
  | O_ctorLock =>
      match mThreadMutex s with
      | None => Some (set_owner O_spawn (set_mThreadMutex (Some Owner) s))
      | Some _ => None
      end
  | O_spawn => Some (set_owner O_ctorUnlock (set_worker W_factory s))
  | O_ctorUnlock => Some (set_owner O_alive (set_mThreadMutex None s))
  | O_alive => Some (set_owner O_dtorLock s)
  | O_dtorLock =>
      match mThreadMutex s with
      | None => Some (set_owner O_clear (set_mThreadMutex (Some Owner) s))
      | Some _ => None
      end
  | O_clear =>
      Some (set_owner O_notify
              (set_dtor_log (dtor_log s ++ [D_clear (mThreadMutex s)])
                 (set_mRunning false s)))
  | O_notify =>
      Some (set_owner O_dtorUnlock
              (set_dtor_log (dtor_log s ++ [D_notify]) (notify_one s)))
  | O_dtorUnlock => Some (set_owner O_join (set_mThreadMutex None s))
  | O_join =>
      match worker s with
      | W_done => Some (set_owner O_done (set_dtor_log (dtor_log s ++ [D_join]) s))
      | _ => None
      end
  | O_done => None
  end.

Definition goto (i : nat) (pc : cpc) (s : state) : state :=
  set_callers (<[i := pc]> (callers s)) s.

(** Return from the public method. *)
Definition finish (i : nat) (r : request) (ch : option promise) (v : value)
    (s : state) : state :=
  goto i C_idle (set_returned (returned s ++ [mkRet i r ch v]) s).

(** First line of each public method. *)
Definition enter (r : request) (p : promise) : cpc :=
  match pushed_closure r p with
  | Some k => C_lock r k
  | None => C_initLock r
  end.

(** Where a method continues once its call to [waitUntilInitialized] has
    returned; [None] when that call was the whole method. *)
Definition after_wait (r : request) : option cpc :=
  match r with
  | waitUntilInitialized => None
  | isProtected => Some (C_readLock r)
  | _ => Some (C_read r)
  end.

(** Caller [i], between calls, invokes [r].  The object must be fully
    constructed and its destructor not yet entered. *)
Definition invoke (i : nat) (r : request) (s : state) : option state :=
  match owner s, callers s !! i with
  | O_alive, Some C_idle =>
      let p := length (promises s) in
      Some (goto i (enter r p)
              (if declares_promise r then set_promises (promises s ++ [None]) s else s))
  | _, _ => None
  end.

(** One step of caller [i] inside a public method. *)
Definition step_caller (i : nat) (s : state) : option state :=
  match callers s !! i with
  | None | Some C_idle => None
  | Some (C_lock r k) =>
      match mThreadMutex s with
      | None => Some (goto i (C_push r k) (set_mThreadMutex (Some (Caller i)) s))
      | Some _ => None
      end
  | Some (C_push r k) =>
      Some (goto i (C_unlock r k)
              (set_enqueued (enqueued s ++ [k])
                 (set_mFunctionCalls (mFunctionCalls s ++ [k]) s)))
  | Some (C_unlock r k) => Some (goto i (C_notify r k) (set_mThreadMutex None s))
  | Some (C_notify r k) =>
      match promise_of k with
      | Some p => Some (goto i (C_get r p) (notify_one s))
      | None => Some (finish i r None V_void (notify_one s))
      end
  | Some (C_get r p) =>
      match promises s !! p with
      | Some (Some v) => Some (finish i r (Some p) v s)
      | _ => None
      end
  | Some (C_initLock r) =>
      match mInitializedMutex s with
      | None => Some (goto i (C_initPred r) (set_mInitializedMutex (Some (Caller i)) s))
      | Some _ => None
      end
  | Some (C_initPred r) =>
      if mIsInitialized s
      then Some (goto i (C_initUnlock r) s)
      else Some (goto i (C_initSleep r) (set_mInitializedMutex None s))
  | Some (C_initSleep r) => None
  | Some (C_initWake r) =>
      match mInitializedMutex s with
      | None => Some (goto i (C_initPred r) (set_mInitializedMutex (Some (Caller i)) s))
      | Some _ => None
      end
  | Some (C_initUnlock r) =>
      match after_wait r with
      | Some pc => Some (goto i pc (set_mInitializedMutex None s))
      | None => Some (finish i r None V_void (set_mInitializedMutex None s))
      end
  | Some (C_read r) =>
      match mRenderEngine s with
      | Some e =>
          match direct_read r e with
          | Some v => Some (finish i r None v s)
          | None => None
          end
      | None => None                       (* null dereference: no behaviour *)
      end
  | Some (C_readLock r) =>
      match mThreadMutex s with
      | None => Some (goto i (C_readLocked r) (set_mThreadMutex (Some (Caller i)) s))
      | Some _ => None
      end
  | Some (C_readLocked r) =>
      match mRenderEngine s with
      | Some e =>
          match direct_read r e with
          | Some v => Some (goto i (C_readUnlock r v) s)
          | None => None
          end
      | None => None                       (* null dereference: no behaviour *)
      end
  | Some (C_readUnlock r v) => Some (finish i r None v (set_mThreadMutex None s))
  end.

(** Who moves.  The two [T_spurious] labels are the spurious wake-ups that
    condition variables are allowed to have. *)
Inductive label :=
| T_worker
| T_owner
| T_invoke (i : nat) (r : request)
| T_caller (i : nat)
| T_spurious_worker
| T_spurious_caller (i : nat).

Definition step (l : label) (s : state) : option state :=
  match l with
  | T_worker => step_worker s
  | T_owner => step_owner s
  | T_invoke i r => invoke i r s
  | T_caller i => step_caller i s
  | T_spurious_worker =>
      match worker s with
      | W_sleep => Some (set_worker W_wake s)
      | _ => None
      end
  | T_spurious_caller i =>
      match callers s !! i with
      | Some (C_initSleep r) => Some (goto i (C_initWake r) s)
      | _ => None
      end
  end.

(** The thread that performs a transition. *)
Definition actor (l : label) : tid :=
  match l with
  | T_worker | T_spurious_worker => Worker
  | T_owner => Owner
  | T_invoke i _ | T_caller i | T_spurious_caller i => Caller i
  end.

(** A schedule is the list of labels taken, first step first. *)
Fixpoint run (sched : list label) (s : state) : option state :=
  match sched with
  | [] => Some s
  | l :: sched' =>
      match step l s with
      | Some s' => run sched' s'
      | None => None
      end
  end.

Definition reachable (s : state) : Prop :=
  ∃ n sched, run sched (init n) = Some s.

(** ** Reachability *)

Lemma run_app sched1 sched2 s :
  run (sched1 ++ sched2) s = run sched1 s ≫= run sched2.
Proof.
  revert s. induction sched1 as [|l sched1 IH]; intros s; simpl; [done|].
  destruct (step l s); simpl; auto.
Qed.

Lemma reachable_init n : reachable (init n).
Proof. by exists n, []. Qed.

Lemma reachable_step s l s' : reachable s → step l s = Some s' → reachable s'.
Proof.
  intros (n & sched & Hrun) Hstep. exists n, (sched ++ [l]).
  rewrite run_app, Hrun. simpl. by rewrite Hstep.
Qed.

Lemma reachable_run s sched s' : reachable s → run sched s = Some s' → reachable s'.
Proof.
  revert s. induction sched as [|l sched IH]; intros s Hs Hrun; simpl in Hrun.
  - by simplify_eq.
  - destruct (step l s) as [s1|] eqn:Hstep; [|done].
    eapply IH; [|done]. by eapply reachable_step.
Qed.

(** Induction over the transitions that lead to a reachable state. *)
Lemma reachable_invariant (P : state → Prop) :
  (∀ n, P (init n)) →
  (∀ s l s', reachable s → P s → step l s = Some s' → P s') →
  ∀ s, reachable s → P s.
Proof.
  intros Hinit Hstep s (n & sched & Hrun). revert s Hrun.
  induction sched as [|l sched IH] using rev_ind; intros s Hrun.
  - simpl in Hrun. simplify_eq. apply Hinit.
  - rewrite run_app in Hrun.
    destruct (run sched (init n)) as [s0|] eqn:Hrun0; simpl in Hrun; [|done].
    destruct (step l s0) as [s1|] eqn:Hl; [|done]. simplify_eq.
    eapply Hstep; [by exists n, sched|by apply IH|done].
Qed.

(** ** Who holds which mutex *)

Definition w_holds (w : wpc) : bool :=
  match w with
  | W_lockInit | W_setInit | W_unlockInit | W_notifyAll | W_loop | W_empty
  | W_call _ | W_pred | W_reset | W_return => true
  | _ => false
  end.

Definition o_holds (o : opc) : bool :=
  match o with
  | O_spawn | O_ctorUnlock | O_clear | O_notify | O_dtorUnlock => true
  | _ => false
  end.

Definition c_holds (c : cpc) : bool :=
  match c with
  | C_push _ _ | C_unlock _ _ | C_readLocked _ | C_readUnlock _ _ => true
  | _ => false
  end.

(** Thread [t] is between an acquisition and the matching release of
    [mThreadMutex]. *)
Definition in_queue_section (s : state) (t : tid) : bool :=
  match t with
  | Worker => w_holds (worker s)
  | Owner => o_holds (owner s)
  | Caller i => from_option c_holds false (callers s !! i)
  end.

Definition w_holds_init (w : wpc) : bool :=
  match w with
  | W_setInit | W_unlockInit => true
  | _ => false
  end.

Definition c_holds_init (c : cpc) : bool :=
  match c with
  | C_initPred _ | C_initUnlock _ => true
  | _ => false
  end.

Definition in_init_section (s : state) (t : tid) : bool :=
  match t with
  | Worker => w_holds_init (worker s)
  | Owner => false
  | Caller i => from_option c_holds_init false (callers s !! i)
  end.

Definition queue_lock_inv (s : state) : Prop :=
  ∀ t, mThreadMutex s = Some t ↔ in_queue_section s t = true.

Definition init_lock_inv (s : state) : Prop :=
  ∀ t, mInitializedMutex s = Some t ↔ in_init_section s t = true.

Lemma lookup_goto i pc s j :
  is_Some (callers s !! i) →
  callers (goto i pc s) !! j = if decide (i = j) then Some pc else callers s !! j.
Proof.
  intros Hi%lookup_lt_is_Some. unfold goto; simpl. case_decide; subst.
  - by apply list_lookup_insert_eq.
  - by apply list_lookup_insert_ne.
Qed.

Lemma lookup_replicate_idle n i c :
  replicate n C_idle !! i = Some c → c = C_idle.
Proof. by intros [-> _]%lookup_replicate. Qed.

Lemma sleeping_true w : sleeping w = true → w = W_sleep.
Proof. by destruct w. Qed.

Lemma work_or_stop_false s :
  work_or_stop s = false → mRunning s = true ∧ mFunctionCalls s = [].
Proof.
  unfold work_or_stop. destruct (mRunning s), (mFunctionCalls s); naive_solver.
Qed.

Lemma work_or_stop_true s :
  work_or_stop s = true → mRunning s = false ∨ mFunctionCalls s ≠ [].
Proof.
  unfold work_or_stop. destruct (mRunning s), (mFunctionCalls s); naive_solver.
Qed.

Lemma after_wait_Some r pc :
  after_wait r = Some pc →
  (pc = C_read r ∧ after_wait r = Some (C_read r)) ∨
  (r = isProtected ∧ pc = C_readLock r).
Proof. destruct r; simpl; intros; simplify_eq; auto. Qed.

Lemma after_wait_None r : after_wait r = None → r = waitUntilInitialized.
Proof. by destruct r. Qed.

(** Case analysis on a transition: one goal per source line that can be
    executed, with the successor state made explicit. *)
Ltac step_cases H :=
  match type of H with
  | step ?l ?s = Some ?s' =>
      destruct l as [| |?i ?r|?i| |?i]; simpl in H;
      [ unfold step_worker in H; destruct (worker s) eqn:?Hw
      | unfold step_owner, notify_one in H; destruct (owner s) eqn:?Ho
      | unfold invoke, enter in H; destruct (owner s) eqn:?Ho;
        destruct (callers s !! i) as [[]|] eqn:?Hc
      | unfold step_caller, notify_one in H;
        destruct (callers s !! i) as [[]|] eqn:?Hc
      | destruct (worker s) eqn:?Hw
      | destruct (callers s !! i) as [[]|] eqn:?Hc ];
      try done;
      repeat (match type of H with
              | context [match ?x with _ => _ end] => destruct x eqn:?
              end; try done);
      unfold finish, goto, notify_all in H; simplify_eq;
      repeat match goal with
        | E : sleeping _ = true |- _ => apply sleeping_true in E
        | E : work_or_stop _ = false |- _ => apply work_or_stop_false in E as [??]
        | E : after_wait _ = None |- _ => apply after_wait_None in E as ->
        | E : after_wait _ = Some _ |- _ =>
            apply after_wait_Some in E as [[-> ?]|[-> ->]]
        end
  end.

(** Replace the program counters that the case analysis has determined. *)
Ltac pc_rewrite :=
  repeat match goal with
    | E : worker _ = _ |- _ => progress (rewrite E in * |-)
    | E : worker _ = _ |- _ => progress (rewrite E)
    | E : owner _ = _ |- _ => progress (rewrite E in * |-)
    | E : owner _ = _ |- _ => progress (rewrite E)
    | E : callers _ !! _ = _ |- _ => progress (rewrite E in * |-)
    | E : callers _ !! _ = _ |- _ => progress (rewrite E)
    | E : mRenderEngine _ = _ |- _ => progress (rewrite E)
    | E : mThreadMutex _ = _ |- _ => progress (rewrite E)
    | E : mInitializedMutex _ = _ |- _ => progress (rewrite E)
    | E : mRunning _ = _ |- _ => progress (rewrite E)
    | E : mIsInitialized _ = _ |- _ => progress (rewrite E)
    | E : mFunctionCalls _ = _ |- _ => progress (rewrite E)
    | E : mFunctionCalls _ = _ |- _ => progress (rewrite E in * |-)
    end.

(** Look up caller [j] after caller [i] has moved. *)
Ltac caller_cases i j :=
  destruct (decide (i = j)) as [->|?];
  [ rewrite ?list_lookup_insert_eq by (by eapply lookup_lt_Some)
  | rewrite ?list_lookup_insert_ne by done ].

Lemma queue_lock_invariant s : reachable s → queue_lock_inv s.
Proof.
  induction 1 as [n|s l s' _ IH Hstep] using reachable_invariant.
  - intros [| |i]; simpl; [done..|].
    destruct (replicate n C_idle !! i) eqn:E; simpl; [|done].
    by apply lookup_replicate_idle in E as ->.
  - step_cases Hstep.
    all: intros t; pose proof (IH t) as IHt; pose proof (IH Worker) as IHw;
      pose proof (IH Owner) as IHo; try (pose proof (IH (Caller i)) as IHi).
    all: destruct t as [| |j]; unfold in_queue_section in *; simpl in *.
    all: try caller_cases i j.
    all: pc_rewrite; simpl in *; try (intuition congruence).
    rewrite list_lookup_fmap. by destruct (callers s !! j) as [[]|].
Qed.

(** ** Thread lifetimes *)

Definition w_born (w : wpc) : bool :=
  match w with
  | W_unborn => false
  | _ => true
  end.

Definition o_spawned (o : opc) : bool :=
  match o with
  | O_ctorLock | O_spawn => false
  | _ => true
  end.

(** The worker exists from [O_spawn] on, and [join] has returned only if the
    thread function has. *)
Definition thread_inv (s : state) : Prop :=
  w_born (worker s) = o_spawned (owner s) ∧
  (owner s = O_done → worker s = W_done).

Lemma thread_invariant s : reachable s → thread_inv s.
Proof.
  induction 1 as [n|s l s' _ [IH1 IH2] Hstep] using reachable_invariant; [done|].
  step_cases Hstep; split; simpl; pc_rewrite; simpl in *; try done.
  all: naive_solver.
Qed.

Lemma unborn_at_spawn s : reachable s → owner s = O_spawn → worker s = W_unborn.
Proof.
  intros [Hs _]%thread_invariant Ho. rewrite Ho in Hs. by destruct (worker s).
Qed.

Lemma init_lock_invariant s : reachable s → init_lock_inv s.
Proof.
  induction 1 as [n|s l s' Hs IH Hstep] using reachable_invariant.
  - intros [| |i]; simpl; [done..|].
    destruct (replicate n C_idle !! i) eqn:E; simpl; [|done].
    by apply lookup_replicate_idle in E as ->.
  - apply thread_invariant in Hs as [Hborn _]. step_cases Hstep.
    all: intros t; pose proof (IH t) as IHt; pose proof (IH Worker) as IHw;
      pose proof (IH Owner) as IHo; try (pose proof (IH (Caller i)) as IHi).
    all: destruct t as [| |j]; unfold in_init_section in *; simpl in *.
    all: try caller_cases i j.
    all: pc_rewrite; simpl in *; try (intuition congruence).
    + rewrite list_lookup_fmap. by destruct (callers s !! j) as [[]|].
    + destruct (worker s); simpl in *; intuition congruence.
Qed.

(** Mutual exclusion on both mutexes. *)
Lemma queue_lock_exclusive s t1 t2 :
  reachable s →
  in_queue_section s t1 = true → in_queue_section s t2 = true → t1 = t2.
Proof.
  intros Hs%queue_lock_invariant H1%Hs H2%Hs. congruence.
Qed.

Lemma init_lock_exclusive s t1 t2 :
  reachable s →
  in_init_section s t1 = true → in_init_section s t2 = true → t1 = t2.
Proof.
  intros Hs%init_lock_invariant H1%Hs H2%Hs. congruence.
Qed.

(** ** What the program counters determine *)

Definition non_null {A} (p : option A) : bool :=
  match p with
  | Some _ => true
  | None => false
  end.

(** [threadMain] is past l.79. *)
Definition w_initialized (w : wpc) : bool :=
  match w with
  | W_unborn | W_factory | W_lock | W_lockInit | W_setInit => false
  | _ => true
  end.

(** [threadMain] is past l.72 and not past l.95. *)
Definition w_engine (w : wpc) : bool :=
  match w with
  | W_unborn | W_factory | W_return | W_done => false
  | _ => true
  end.

(** [threadMain] is past l.81. *)
Definition w_notified (w : wpc) : bool :=
  match w with
  | W_unborn | W_factory | W_lock | W_lockInit | W_setInit | W_unlockInit
  | W_notifyAll => false
  | _ => true
  end.

(** [threadMain] is inside the [if] of the loop body (l.84 to l.88). *)
Definition w_in_body (w : wpc) : bool :=
  match w with
  | W_empty | W_call _ => true
  | _ => false
  end.

(** The destructor is past l.53. *)
Definition o_cleared (o : opc) : bool :=
  match o with
  | O_notify | O_dtorUnlock | O_join | O_done => true
  | _ => false
  end.

(** The destructor steps that have been taken at [o]. *)
Definition dtor_steps (o : opc) : list dtor_event :=
  match o with
  | O_notify => [D_clear (Some Owner)]
  | O_dtorUnlock | O_join => [D_clear (Some Owner); D_notify]
  | O_done => [D_clear (Some Owner); D_notify; D_join]
  | _ => []
  end.

Definition lifecycle_inv (s : state) : Prop :=
  mIsInitialized s = w_initialized (worker s) ∧
  non_null (mRenderEngine s) = w_engine (worker s) ∧
  mRunning s = negb (o_cleared (owner s)) ∧
  (w_in_body (worker s) = true → mRunning s = true) ∧
  dtor_log s = dtor_steps (owner s).

Lemma lifecycle_invariant s : reachable s → lifecycle_inv s.
Proof.
  induction 1 as [n|s l s' Hs IH Hstep] using reachable_invariant; [done|].
  pose proof (queue_lock_invariant _ Hs Worker) as Lw.
  pose proof (queue_lock_invariant _ Hs Owner) as Lo.
  apply thread_invariant in Hs as [Hborn _].
  destruct IH as (I1 & I2 & I3 & I4 & I5). simpl in Lw, Lo.
  step_cases Hstep; unfold lifecycle_inv; simpl.
  all: pc_rewrite; simpl in *; try (intuition congruence).
  all: try (assert (mThreadMutex s = Some Owner) as Hm by (by apply Lo);
            rewrite Hm in *); rewrite ?I5; simpl.
  all: destruct (worker s); simpl in *; try (intuition congruence).
Qed.

(** ** The queue and its history *)

(** The task the worker is inside, if any. *)
Definition current (w : wpc) : list closure :=
  match w with
  | W_call k => [k]
  | _ => []
  end.

Definition bracket (k : closure) : list exec_event := [X_begin k; X_end k].

(** Every pushed task is completed, being executed, or still queued, in
    push order; the timeline is a sequence of completed begin/end pairs,
    followed by the begin of the task being executed. *)
Definition fifo_inv (s : state) : Prop :=
  enqueued s = (executed s).*1 ++ current (worker s) ++ mFunctionCalls s ∧
  timeline s = ((executed s).*1 ≫= bracket) ++ (X_begin <$> current (worker s)).

Lemma fifo_invariant s : reachable s → fifo_inv s.
Proof.
  induction 1 as [n|s l s' Hs [IH1 IH2] Hstep] using reachable_invariant; [done|].
  pose proof (unborn_at_spawn _ Hs) as Hspawn.
  step_cases Hstep; unfold fifo_inv; simpl.
  all: try (rewrite Hspawn in * by done).
  all: pc_rewrite; simpl in *; rewrite ?IH1, ?IH2; try done.
  all: rewrite ?fmap_app, ?bind_app, ?app_nil_r, <-?app_assoc; simpl; try done.
Qed.

(** ** Callers *)

(** The methods that push nothing: [waitUntilInitialized] and the accessors
    that start with a call to it. *)
Definition direct (r : request) : bool :=
  match r with
  | waitUntilInitialized | getMaxTextureSize | getMaxViewportDims | isProtected
  | supportsProtectedContent | supportsBackgroundBlur => true
  | _ => false
  end.

Lemma pushed_closure_None r p : pushed_closure r p = None ↔ direct r = true.
Proof. by destruct r. Qed.

Lemma pushed_closure_Some r p k : pushed_closure r p = Some k → direct r = false.
Proof. by destruct r. Qed.

Lemma pushed_closure_promise r p k q :
  pushed_closure r p = Some k → promise_of k = Some q → q = p ∧ declares_promise r = true.
Proof. destruct r; simpl; intros; simplify_eq; naive_solver. Qed.

Lemma pushed_closure_no_promise r p k :
  pushed_closure r p = Some k → promise_of k = None → declares_promise r = false.
Proof. destruct r; simpl; intros; by simplify_eq. Qed.

Lemma call_closure_promise k e p v :
  (call_closure k e).2 = Some (p, v) → promise_of k = Some p.
Proof.
  destruct k; simpl; try done; repeat case_match; simpl; intros; by simplify_eq.
Qed.

Lemma call_closure_fulfils k e p :
  promise_of k = Some p → ∃ v, (call_closure k e).2 = Some (p, v).
Proof.
  destruct k; simpl; try done; repeat case_match; simpl; intros; simplify_eq; eauto.
Qed.

(** The program counter of a caller agrees with the method it is in. *)
Definition cpc_wf (c : cpc) : Prop :=
  match c with
  | C_idle => True
  | C_lock r k | C_push r k | C_unlock r k | C_notify r k =>
      ∃ p, pushed_closure r p = Some k
  | C_get r p => ∃ k, pushed_closure r p = Some k ∧ promise_of k = Some p
  | C_initLock r | C_initPred r | C_initSleep r | C_initWake r | C_initUnlock r =>
      direct r = true
  | C_read r => direct r = true ∧ after_wait r = Some (C_read r)
  | C_readLock r | C_readLocked r | C_readUnlock r _ => r = isProtected
  end.

Definition request_of (c : cpc) : option request :=
  match c with
  | C_idle => None
  | C_lock r _ | C_push r _ | C_unlock r _ | C_notify r _ | C_get r _
  | C_initLock r | C_initPred r | C_initSleep r | C_initWake r | C_initUnlock r
  | C_read r | C_readLock r | C_readLocked r | C_readUnlock r _ => Some r
  end.

(** The caller is inside the push-and-wait part of a method. *)
Definition c_queueing (c : cpc) : bool :=
  match c with
  | C_lock _ _ | C_push _ _ | C_unlock _ _ | C_notify _ _ | C_get _ _ => true
  | _ => false
  end.

Lemma cpc_wf_queued c r :
  cpc_wf c → request_of c = Some r → c_queueing c = true → direct r = false.
Proof.
  destruct c; simpl; try done; intros Hwf ? _; simplify_eq.
  1-4: destruct Hwf as [p Hp]; by eapply pushed_closure_Some.
  destruct Hwf as (k & Hk & _). by eapply pushed_closure_Some.
Qed.

Lemma cpc_wf_direct c r :
  cpc_wf c → request_of c = Some r → c_queueing c = false → direct r = true.
Proof.
  destruct c; simpl; try done; intros Hwf ? _; simplify_eq; try done.
  by destruct Hwf.
Qed.

Lemma cpc_wf_invariant s i c :
  reachable s → callers s !! i = Some c → cpc_wf c.
Proof.
  intros Hs. revert i c.
  induction Hs as [n|s l s' _ IH Hstep] using reachable_invariant; intros j cj.
  { by intros ->%lookup_replicate_idle. }
  step_cases Hstep; simpl; try apply IH.
  all: try (caller_cases i j; [|by apply IH]; intros; simplify_eq; simpl).
  all: try (specialize (IH _ _ Hc); simpl in IH); try done; eauto.
  all: try by eapply pushed_closure_None.
  { rewrite list_lookup_fmap. destruct (callers s !! j) as [c|] eqn:E; [|done].
    simpl. intros; simplify_eq. apply IH in E. by destruct c. }
  all: destruct IH as [q IH];
    destruct (pushed_closure_promise _ _ _ _ IH Heqo) as [-> _]; eauto.
Qed.

(** ** The initialisation barrier *)

(** The caller has seen the wait predicate of [waitUntilInitialized] hold. *)
Definition c_waited (c : cpc) : bool :=
  match c with
  | C_initUnlock _ | C_read _ | C_readLock _ | C_readLocked _ | C_readUnlock _ _ => true
  | _ => false
  end.

(** The caller is blocked on [mInitializedCondition]. *)
Definition c_asleep (c : cpc) : bool :=
  match c with
  | C_initSleep _ => true
  | _ => false
  end.

Definition barrier_inv (s : state) : Prop :=
  (∀ i c, callers s !! i = Some c → c_waited c = true → mIsInitialized s = true) ∧
  (∀ i c, callers s !! i = Some c → c_asleep c = true → w_notified (worker s) = false) ∧
  (∀ x, x ∈ returned s → direct (r_request x) = true → mIsInitialized s = true).

Lemma step_mIsInitialized l s s' :
  step l s = Some s' → mIsInitialized s = true → mIsInitialized s' = true.
Proof. intros Hstep. by step_cases Hstep. Qed.

Lemma barrier_invariant s : reachable s → barrier_inv s.
Proof.
  induction 1 as [n|s l s' Hs (IH1 & IH2 & IH3) Hstep] using reachable_invariant.
  { split_and!; [by intros ?? ->%lookup_replicate_idle..|by intros ? ?%elem_of_nil]. }
  pose proof (lifecycle_invariant _ Hs) as (Hinit & _).
  pose proof (unborn_at_spawn _ Hs) as Hspawn.
  pose proof (λ i c, cpc_wf_invariant s i c Hs) as Hwf.
  split_and!.
  - intros j cj Hj Hcj. step_cases Hstep; simpl in *.
    all: try (revert Hj; caller_cases i j; [|by eauto]; intros; simplify_eq).
    all: try (by eauto); try (by eapply (IH1 i); [exact Hc|]).
  - intros j cj Hj Hcj. step_cases Hstep; simpl in *.
    all: try (revert Hj; caller_cases i j; intros; simplify_eq).
    all: try (specialize (IH2 _ _ Hj Hcj)); pc_rewrite; simpl in *; try done.
    + rewrite list_lookup_fmap in Hj.
      destruct (callers s !! j) as [[]|]; simpl in *; by simplify_eq.
    + by destruct (worker s).
  - intros x Hx Hd. step_cases Hstep; simpl in *; try done.
    all: try (by specialize (IH3 _ Hx Hd)).
    all: rewrite elem_of_app, list_elem_of_singleton in Hx;
      destruct Hx as [Hx| ->]; [by eapply IH3|].
    all: simpl in *; try (by eapply (IH1 i); [exact Hc|]).
    all: specialize (Hwf _ _ Hc); eapply cpc_wf_queued in Hwf; [|done..]; congruence.
Qed.

(** ** Result channels *)

(** The promise on the caller's stack while it is inside a blocking method. *)
Definition chan (c : cpc) : option promise :=
  match c with
  | C_lock _ k | C_push _ k | C_unlock _ k | C_notify _ k => promise_of k
  | C_get _ p => Some p
  | _ => None
  end.

(** The caller's lambda is on the queue or has been taken from it. *)
Definition c_pushed (c : cpc) : bool :=
  match c with
  | C_unlock _ _ | C_notify _ _ | C_get _ _ => true
  | _ => false
  end.

Lemma chan_wake c : chan (wake c) = chan c.
Proof. by destruct c. Qed.

Lemma lookup_wake s j c :
  (wake <$> callers s) !! j = Some c →
  ∃ c0, callers s !! j = Some c0 ∧ c = wake c0.
Proof.
  rewrite list_lookup_fmap. destruct (callers s !! j) as [c0|]; simpl; [|done].
  intros; simplify_eq. eauto.
Qed.

(** Promises in use are allocated. *)
Definition chan_bound_inv (s : state) : Prop :=
  (∀ i c p, callers s !! i = Some c → chan c = Some p → p < length (promises s))%nat ∧
  (∀ k p, k ∈ enqueued s → promise_of k = Some p → p < length (promises s))%nat.

Lemma length_fulfil out ps : length (fulfil out ps) = length ps.
Proof. destruct out as [[]|]; simpl; by rewrite ?length_insert. Qed.

Ltac pushed_promise :=
  match goal with
  | H1 : pushed_closure _ _ = Some ?k, H2 : promise_of ?k = Some _ |- _ =>
      destruct (pushed_closure_promise _ _ _ _ H1 H2) as [-> ?]
  end.

Lemma chan_bound_invariant s : reachable s → chan_bound_inv s.
Proof.
  induction 1 as [n|s l s' Hs [IH1 IH2] Hstep] using reachable_invariant.
  { split; [by intros ??? ->%lookup_replicate_idle|by intros ?? ?%elem_of_nil]. }
  split.
  - intros j cj p Hj Hp. step_cases Hstep; simpl in *.
    all: try (apply lookup_wake in Hj as (c0 & Hj & ->); rewrite chan_wake in Hp).
    all: try (revert Hj; caller_cases i j; intros; simplify_eq).
    all: rewrite ?length_app, ?length_fulfil; simpl in *.
    all: try (by eapply IH1); try (by eapply (IH1 i); [exact Hc|]).
    all: try (by etrans; [eapply IH1|lia]).
    all: try (simplify_eq; by eapply (IH1 j); [exact Hc|]).
    all: pushed_promise; lia || congruence.
  - intros k p Hk Hp. step_cases Hstep; simpl in *.
    all: rewrite ?length_app, ?length_fulfil; simpl in *.
    all: try (by eapply IH2); try (by etrans; [eapply IH2|lia]).
    rewrite elem_of_app, list_elem_of_singleton in Hk. destruct Hk as [Hk| ->].
    + by eapply IH2.
    + by eapply (IH1 i); [exact Hc|].
Qed.

(** No two callers share a promise. *)
Definition chan_unique_inv (s : state) : Prop :=
  ∀ i j c c' p,
    callers s !! i = Some c → callers s !! j = Some c' →
    chan c = Some p → chan c' = Some p → i = j.

Lemma chan_unique_invariant s : reachable s → chan_unique_inv s.
Proof.
  induction 1 as [n|s l s' Hs IH Hstep] using reachable_invariant.
  { by intros ????? ->%lookup_replicate_idle. }
  destruct (chan_bound_invariant _ Hs) as [B1 _].
  intros j1 j2 c1 c2 p H1 H2 Hp1 Hp2. step_cases Hstep; simpl in *.
  all: try (apply lookup_wake in H1 as (? & H1 & ->); rewrite chan_wake in Hp1;
            apply lookup_wake in H2 as (? & H2 & ->); rewrite chan_wake in Hp2).
  all: try (by eapply IH).
  all: revert H1 H2; caller_cases i j1; try caller_cases i j2;
    try caller_cases j1 j2; intros; simplify_eq; try done.
  all: try (by eapply IH).
  all: try (by eapply (IH i j2); [exact Hc|done|simpl|done]).
  all: try (by eapply (IH j1 i); [done|exact Hc|done|simpl]).
  all: try (by eapply (IH j1 j2); [exact Hc|done|simpl|done]).
  all: try (by eapply (IH j1 j2); [done|exact Hc|done|simpl]).
  all: simpl in *; try pushed_promise.
  all: try (specialize (B1 _ _ _ H2 Hp2); lia).
  all: try (specialize (B1 _ _ _ H1 Hp1); lia).
  all: simplify_eq.
  all: try (by eapply (IH j1 j2); [exact Hc|done|simpl|done]).
  all: try (by eapply (IH j1 j2); [done|exact Hc|done|simpl]).
Qed.

Lemma c_pushed_wake c : c_pushed (wake c) = c_pushed c.
Proof. by destruct c. Qed.

Lemma request_of_wake c : request_of (wake c) = request_of c.
Proof. by destruct c. Qed.

(** A queued lambda that captured a caller's promise is the lambda that this
    caller pushed, and no promise is captured by two pushed lambdas. *)
Definition chan_owner_inv (s : state) : Prop :=
  (∀ i c p k,
     callers s !! i = Some c → chan c = Some p →
     k ∈ enqueued s → promise_of k = Some p →
     c_pushed c = true ∧ ∃ r, request_of c = Some r ∧ pushed_closure r p = Some k) ∧
  NoDup (omap promise_of (enqueued s)).

Lemma chan_owner_invariant s : reachable s → chan_owner_inv s.
Proof.
  induction 1 as [n|s l s' Hs [IH1 IH2] Hstep] using reachable_invariant.
  { split; [by intros ???? ->%lookup_replicate_idle|constructor]. }
  destruct (chan_bound_invariant _ Hs) as [B1 B2].
  pose proof (chan_unique_invariant _ Hs) as U.
  pose proof (λ i c, cpc_wf_invariant s i c Hs) as Hwf.
  split.
  - intros j cj p k Hj Hp Hk Hkp. step_cases Hstep; simpl in *.
    all: try (apply lookup_wake in Hj as (? & Hj & ->);
              rewrite chan_wake in Hp; rewrite c_pushed_wake, request_of_wake).
    all: try (by eapply IH1).
    all: revert Hj; caller_cases i j; intros; simplify_eq; simpl in *; simplify_eq.
    all: try (by eapply IH1).
    all: try (specialize (IH1 _ _ _ _ Hc Hp Hk Hkp); simpl in IH1; by destruct IH1).
    all: try (pushed_promise; specialize (B2 _ _ Hk Hkp); lia).
    all: try (edestruct (IH1 j) as [? ?]; [exact Hc|simpl; done|done|done|];
              simpl in *; split; [done|eauto]).
    all: rewrite elem_of_app, list_elem_of_singleton in Hk; destruct Hk as [Hk| ->].
    all: try (by eapply IH1).
    all: try (specialize (IH1 _ _ _ _ Hc Hp Hk Hkp); simpl in IH1; by destruct IH1).
    + split; [done|]. destruct (Hwf _ _ Hc) as [q Hq]. pushed_promise. eauto.
    + by destruct (n (U _ _ _ _ _ Hc Hj Hkp Hp)).
  - step_cases Hstep; simpl in *; try done.
    rewrite omap_app. simpl. destruct (promise_of k) as [p|] eqn:Hp; simpl.
    2: by rewrite app_nil_r.
    apply list.NoDup_app. split_and!; [done| |apply NoDup_singleton].
    intros q (k' & Hk' & Hq)%list_elem_of_omap ->%list_elem_of_singleton.
    by destruct (IH1 _ _ _ _ Hc Hp Hk' Hq).
Qed.

Lemma lookup_fulfil_ne out ps p :
  (∀ q v, out = Some (q, v) → q ≠ p) → fulfil out ps !! p = ps !! p.
Proof.
  destruct out as [[q v]|]; simpl; [|done].
  intros H. apply list_lookup_insert_ne. by eapply H.
Qed.

Lemma lookup_fulfil_Some out ps p v :
  fulfil out ps !! p = Some (Some v) → out = Some (p, v) ∨ ps !! p = Some (Some v).
Proof.
  destruct out as [[q w]|]; simpl; [|by right].
  destruct (decide (q = p)) as [->|].
  - intros H. apply list_lookup_insert_Some in H as [(_ & ? & _)|[? _]]; [|done].
    left. congruence.
  - rewrite list_lookup_insert_ne by done. by right.
Qed.

Lemma lookup_alloc_Some (ps : list (option value)) p v :
  (ps ++ [None]) !! p = Some (Some v) → ps !! p = Some (Some v).
Proof.
  intros [H|[_ H]]%lookup_app_Some; [done|].
  by destruct (p - length ps)%nat.
Qed.

Lemma lookup_alloc_None (ps : list (option value)) p :
  ps !! p = Some None → (ps ++ [None]) !! p = Some None.
Proof. intros H. by apply lookup_app_l_Some. Qed.


Lemma enqueued_executed s k e :
  reachable s → (k, e) ∈ executed s → k ∈ enqueued s.
Proof.
  intros [-> _]%fifo_invariant Hk. apply elem_of_app. left.
  apply list_elem_of_fmap. by exists (k, e).
Qed.

(** A set promise was set by a completed task; the promise of a task that
    has not completed, or has not been pushed yet, is unset. *)
Definition store_inv (s : state) : Prop :=
  (∀ p v, promises s !! p = Some (Some v) →
          ∃ k e, (k, e) ∈ executed s ∧ (call_closure k e).2 = Some (p, v)) ∧
  (∀ k p, k ∈ current (worker s) ++ mFunctionCalls s → promise_of k = Some p →
          promises s !! p = Some None) ∧
  (∀ i c p, callers s !! i = Some c → chan c = Some p → c_pushed c = false →
            promises s !! p = Some None) ∧
  (∀ k e p v, (k, e) ∈ executed s → (call_closure k e).2 = Some (p, v) →
              promises s !! p = Some (Some v)).

Lemma NoDup_omap_head {A B} (f : A → option B) x y l b :
  NoDup (omap f (x :: l)) → y ∈ l → f x = Some b → f y = Some b → False.
Proof.
  simpl. intros Hnd Hy Hx Hfy. rewrite Hx in Hnd.
  apply NoDup_cons_1_1 in Hnd. apply Hnd, list_elem_of_omap. eauto.
Qed.

Lemma NoDup_omap_middle {A B} (f : A → option B) x y l1 l2 b :
  NoDup (omap f (l1 ++ x :: l2)) → y ∈ l1 → f x = Some b → f y = Some b → False.
Proof.
  rewrite omap_app. simpl. intros Hnd Hy Hx Hfy. rewrite Hx in Hnd.
  apply list.NoDup_app in Hnd as (_ & Hnd & _).
  eapply (Hnd b); [apply list_elem_of_omap; eauto|by left].
Qed.

Lemma store_invariant s : reachable s → store_inv s.
Proof.
  induction 1 as [n|s l s' Hs (IH1 & IH2 & IH3 & IH4) Hstep]
    using reachable_invariant.
  { split_and!; [by intros [|?] ?|by intros ?? ?%elem_of_nil
                |by intros ??? ->%lookup_replicate_idle
                |by intros ???? ?%elem_of_nil]. }
  destruct (chan_bound_invariant _ Hs) as [_ B2].
  destruct (chan_owner_invariant _ Hs) as [O1 O2].
  pose proof (fifo_invariant _ Hs) as [F1 _].
  pose proof (unborn_at_spawn _ Hs) as Hspawn.
  split_and!.
  - intros p v Hp. step_cases Hstep; simpl in *; try by eapply IH1.
    all: try (apply lookup_alloc_Some in Hp; by eapply IH1).
    apply lookup_fulfil_Some in Hp as [->|Hp].
    + exists task, i. split; [apply elem_of_app; right; by left|].
      by rewrite Heqp0.
    + destruct (IH1 _ _ Hp) as (k & e & ? & ?). exists k, e.
      split; [apply elem_of_app; by left|done].
  - intros k p Hk Hp. step_cases Hstep; simpl in *.
    all: try (rewrite Hspawn in * by done).
    all: pc_rewrite; simpl in *.
    all: try (by eapply IH2).
    all: try (apply lookup_alloc_None; by eapply IH2).
    + rewrite lookup_fulfil_ne; [eapply IH2; [by right|done]|].
      intros q v -> ->. rewrite F1, omap_app in O2.
      apply list.NoDup_app in O2 as (_ & _ & O2).
      eapply (NoDup_omap_head _ task k); [done..| |done].
      eapply call_closure_promise. by rewrite Heqp0.
    + rewrite app_assoc, elem_of_app, list_elem_of_singleton in Hk.
      destruct Hk as [Hk| ->].
      * by eapply IH2.
      * by eapply (IH3 i); [exact Hc|simpl|].
  - intros j cj p Hj Hp Hcj. step_cases Hstep; simpl in *.
    all: try (apply lookup_wake in Hj as (? & Hj & ->);
              rewrite chan_wake in Hp; rewrite c_pushed_wake in Hcj).
    all: try (by eapply IH3).
    all: try (revert Hj; caller_cases i j; intros; simplify_eq; simpl in *; simplify_eq).
    all: try (by eapply IH3).
    all: try (apply lookup_alloc_None; by eapply IH3).
    all: try (by eapply (IH3 j); [exact Hc|simpl|]).
    + rewrite lookup_fulfil_ne; [by eapply IH3|].
      intros q v -> ->.
      assert (promise_of task = Some p) as Ht.
      { eapply call_closure_promise. by rewrite Heqp0. }
      destruct (O1 _ _ _ task Hj Hp) as [? _]; [|done|congruence].
      rewrite F1. apply elem_of_app. right. by left.
    + pushed_promise. apply list_lookup_middle. done.
    + pushed_promise. congruence.
  - intros k e p v Hk Hout. step_cases Hstep; simpl in *; try by eapply IH4.
    all: try (apply lookup_app_l_Some; by eapply IH4).
    assert (promise_of task = Some p → (p < length (promises s))%nat) as Hlt.
    { apply B2. rewrite F1. apply elem_of_app. right. by left. }
    rewrite elem_of_app, list_elem_of_singleton in Hk. destruct Hk as [Hk|Hk].
    + rewrite lookup_fulfil_ne; [by eapply IH4|].
      intros q w -> ->. rewrite F1 in O2. simpl in O2.
      eapply (NoDup_omap_middle _ task k); [done| | |].
      * apply list_elem_of_fmap. by exists (k, e).
      * eapply call_closure_promise. by rewrite Heqp0.
      * by eapply call_closure_promise.
    + simplify_eq. rewrite Heqp0 in Hout. simpl in Hout. subst o. simpl.
      apply list_lookup_insert_eq, Hlt.
      eapply call_closure_promise. by rewrite Heqp0.
Qed.

(** Every blocking call that has returned returned the value its own lambda
    stored when the worker ran it. *)
Definition returned_inv (s : state) : Prop :=
  ∀ x p, x ∈ returned s → r_channel x = Some p →
    ∃ k e, (k, e) ∈ executed s ∧
           pushed_closure (r_request x) p = Some k ∧
           (call_closure k e).2 = Some (p, r_value x).

Lemma returned_invariant s : reachable s → returned_inv s.
Proof.
  induction 1 as [n|s l s' Hs IH Hstep] using reachable_invariant.
  { by intros ?? ?%elem_of_nil. }
  destruct (chan_owner_invariant _ Hs) as [O1 _].
  destruct (store_invariant _ Hs) as [S1 _].
  intros x p Hx Hp. step_cases Hstep; simpl in *; try by eapply IH.
  all: try (rewrite elem_of_app, list_elem_of_singleton in Hx;
            destruct Hx as [Hx| ->]; [by eapply IH|]; try done).
  - destruct (IH _ _ Hx Hp) as (k & e & ? & ? & ?). exists k, e.
    split_and!; [apply elem_of_app; by left|done..].
  - simpl in *. simplify_eq.
    destruct (S1 _ _ Heqo) as (k & e & Hke & Hout). exists k, e.
    split_and!; [done| |done].
    destruct (O1 i _ p k Hc) as (_ & r' & ? & ?); simpl in *; [done| | |by simplify_eq].
    + by eapply enqueued_executed.
    + by eapply call_closure_promise.
Qed.

Lemma direct_no_promise r : direct r = true → declares_promise r = false.
Proof. by destruct r. Qed.

(** A method that declares a promise returns through it. *)
Definition returned_channel_inv (s : state) : Prop :=
  ∀ x, x ∈ returned s → r_channel x = None → declares_promise (r_request x) = false.

Lemma returned_channel_invariant s : reachable s → returned_channel_inv s.
Proof.
  induction 1 as [n|s l s' Hs IH Hstep] using reachable_invariant.
  { by intros ? ?%elem_of_nil. }
  pose proof (λ i c, cpc_wf_invariant s i c Hs) as Hwf.
  intros x Hx Hch. step_cases Hstep; simpl in *; try by eapply IH.
  all: rewrite elem_of_app, list_elem_of_singleton in Hx;
    destruct Hx as [Hx| ->]; [by eapply IH|]; simpl in *; try done.
  all: specialize (Hwf _ _ Hc); simpl in Hwf.
  - destruct Hwf as [q Hq]. by eapply pushed_closure_no_promise.
  - destruct Hwf as [q Hq]. by eapply pushed_closure_no_promise.
  - apply direct_no_promise. by destruct Hwf.
  - by subst.
Qed.

(** * Properties of the dispatcher *)

(** ** Serialized FIFO execution *)

(** A timeline on which no task begins before the previous one has ended. *)
Inductive serial : list exec_event → Prop :=
| serial_idle : serial []
| serial_busy k : serial [X_begin k]
| serial_next k tl : serial tl → serial (X_begin k :: X_end k :: tl).

(** The tasks the worker has started, first started first. *)
Definition begun (tl : list exec_event) : list closure :=
  omap (λ ev, match ev with X_begin k => Some k | X_end _ => None end) tl.

Lemma serial_brackets ks tl : serial tl → serial ((ks ≫= bracket) ++ tl).
Proof. intros Htl. induction ks as [|k ks IH]; simpl; [done|by constructor]. Qed.

Lemma begun_brackets ks tl : begun ((ks ≫= bracket) ++ tl) = ks ++ begun tl.
Proof. induction ks as [|k ks IH]; simpl; [done|]. by f_equal. Qed.

Lemma current_cases w : current w = [] ∨ ∃ k, current w = [k].
Proof. destruct w; simpl; eauto. Qed.

(** C1.  On every reachable state the worker's timeline is serial (a task
    begins only after the previous one has ended, so no two tasks run at the
    same time), and the tasks started so far, in the order they were started,
    followed by the tasks still queued, are exactly the tasks pushed, in the
    order their pushes completed, whichever callers pushed them and whether
    the calls were blocking or not. *)
Theorem C1_serialized_fifo s :
  reachable s →
  serial (timeline s) ∧
  begun (timeline s) ++ mFunctionCalls s = enqueued s.
Proof.
  intros [Henq Htl]%fifo_invariant. rewrite Htl, Henq, begun_brackets. split.
  - apply serial_brackets. destruct (current_cases (worker s)) as [->|[k ->]]; constructor.
  - rewrite <-app_assoc. do 2 f_equal.
    by destruct (current_cases (worker s)) as [->|[k ->]].
Qed.

(** ** Blocking calls *)

Lemma returned_blocking s x :
  reachable s → x ∈ returned s → declares_promise (r_request x) = true →
  ∃ p k e,
    r_channel x = Some p ∧
    pushed_closure (r_request x) p = Some k ∧
    (k, e) ∈ executed s ∧
    (call_closure k e).2 = Some (p, r_value x) ∧
    promises s !! p = Some (Some (r_value x)).
Proof.
  intros Hs Hx Hd.
  destruct (r_channel x) as [p|] eqn:Hp.
  2: { pose proof (returned_channel_invariant _ Hs _ Hx Hp). congruence. }
  destruct (returned_invariant _ Hs _ _ Hx Hp) as (k & e & Hke & Hk & Hout).
  exists p, k, e. split_and!; try done.
  destruct (store_invariant _ Hs) as (_ & _ & _ & S4). by eapply S4.
Qed.

(** C2.  A blocking method (one that declares a promise) that has returned
    returned through its promise [p]: the lambda [k] that this call pushed
    has been run to completion by the worker, on some instance state [e];
    the promise holds the value that [k] stored, and that value is the one
    returned.  Conversely a caller waiting on a promise that is not yet
    set cannot take a step. *)
Theorem C2_blocking_call s :
  reachable s →
  (∀ x, x ∈ returned s → declares_promise (r_request x) = true →
     ∃ p k e,
       r_channel x = Some p ∧
       pushed_closure (r_request x) p = Some k ∧
       (k, e) ∈ executed s ∧
       (call_closure k e).2 = Some (p, r_value x) ∧
       promises s !! p = Some (Some (r_value x))) ∧
  (∀ i r p, callers s !! i = Some (C_get r p) →
     (∀ v, promises s !! p ≠ Some (Some v)) → step (T_caller i) s = None).
Proof.
  intros Hs. split.
  - intros x. by apply returned_blocking.
  - intros i r p Hc Hp. simpl. unfold step_caller. rewrite Hc.
    destruct (promises s !! p) as [[v|]|] eqn:E; [|done..].
    by destruct (Hp v).
Qed.

(** ** The initialisation barrier *)

(** The caller is inside [waitUntilInitialized]. *)
Definition c_in_wait (c : cpc) : bool :=
  match c with
  | C_initLock _ | C_initPred _ | C_initSleep _ | C_initWake _ | C_initUnlock _ => true
  | _ => false
  end.

Definition caller_label (l : label) : bool :=
  match l with
  | T_caller _ => true
  | _ => false
  end.

Lemma lookup_goto_eq i pc s :
  is_Some (callers s !! i) → callers (goto i pc s) !! i = Some pc.
Proof. intros H. rewrite lookup_goto by done. by rewrite decide_True. Qed.

Lemma lookup_goto_ne i j pc s :
  i ≠ j → callers (goto i pc s) !! j = callers s !! j.
Proof. intros H. unfold goto; simpl. by apply list_lookup_insert_ne. Qed.

Lemma after_wait_left r c : after_wait r = Some c → c_in_wait c = false.
Proof. destruct r; simpl; intros; by simplify_eq. Qed.

(** With the flag set, the holder of [mInitializedMutex] leaves the wait and
    releases the mutex in at most two steps of its own. *)
Lemma wait_holder_leaves s j c :
  mIsInitialized s = true → callers s !! j = Some c → c_holds_init c = true →
  ∃ sched s',
    Forall (λ l, caller_label l = true) sched ∧
    run sched s = Some s' ∧
    mInitializedMutex s' = None ∧ mIsInitialized s' = true ∧
    (∀ i, i ≠ j → callers s' !! i = callers s !! i) ∧
    (∃ c', callers s' !! j = Some c' ∧ c_in_wait c' = false).
Proof.
  intros Hflag Hc Hh.
  assert (∀ r s0, mIsInitialized s0 = true → callers s0 !! j = Some (C_initUnlock r) →
    ∃ s', run [T_caller j] s0 = Some s' ∧
      mInitializedMutex s' = None ∧ mIsInitialized s' = true ∧
      (∀ i, i ≠ j → callers s' !! i = callers s0 !! i) ∧
      (∃ c', callers s' !! j = Some c' ∧ c_in_wait c' = false)) as Hunlock.
  { intros r s0 Hf0 Hc0. simpl. unfold step_caller. rewrite Hc0.
    destruct (after_wait r) as [c1|] eqn:Ha; eexists; (split; [done|]); simpl.
    - split_and!; [done..| |].
      + intros i Hi. by apply list_lookup_insert_ne.
      + exists c1. split; [|by eapply after_wait_left].
        apply list_lookup_insert_eq. by eapply lookup_lt_Some.
    - split_and!; [done..| |].
      + intros i Hi. by apply list_lookup_insert_ne.
      + exists C_idle. split; [|done].
        apply list_lookup_insert_eq. by eapply lookup_lt_Some. }
  destruct c; try done.
  - destruct (Hunlock r (goto j (C_initUnlock r) s)) as (s' & Hrun & ? & ? & Hothers & ?).
    { done. }
    { by apply lookup_goto_eq. }
    exists [T_caller j; T_caller j], s'. split_and!; try done.
    + by repeat constructor.
    + simpl in *. unfold step_caller at 1. by rewrite Hc, Hflag.
    + intros i Hi. rewrite Hothers by done. by apply lookup_goto_ne.
  - destruct (Hunlock r s) as (s' & Hrun & ? & ? & Hothers & ?); [done..|].
    exists [T_caller j], s'. split_and!; try done. by repeat constructor.
Qed.

(** With the flag set and the mutex free, a caller at the entry of the wait
    (or woken from it) leaves it in three steps of its own. *)
Lemma wait_entry_leaves s i c :
  mIsInitialized s = true → mInitializedMutex s = None →
  callers s !! i = Some c → (∃ r, c = C_initLock r ∨ c = C_initWake r) →
  ∃ sched s',
    Forall (λ l, caller_label l = true) sched ∧
    run sched s = Some s' ∧
    (∃ c', callers s' !! i = Some c' ∧ c_in_wait c' = false).
Proof.
  intros Hflag Hfree Hc [r Hr].
  pose (s1 := goto i (C_initPred r) (set_mInitializedMutex (Some (Caller i)) s)).
  assert (step (T_caller i) s = Some s1) as Hstep.
  { simpl. unfold step_caller. rewrite Hc. by destruct Hr as [-> | ->]; rewrite Hfree. }
  destruct (wait_holder_leaves s1 i (C_initPred r)) as (sched & s' & ? & Hrun & _ & _ & _ & ?).
  { done. }
  { by apply lookup_goto_eq. }
  { done. }
  exists (T_caller i :: sched), s'. split_and!; [by constructor| |done].
  simpl in *. by rewrite Hstep.
Qed.

Lemma w_notified_initialized w : w_notified w = true → w_initialized w = true.
Proof. by destruct w. Qed.

(** Once the worker has passed [notify_all], every caller inside
    [waitUntilInitialized] can return from it, by steps of callers alone. *)
Lemma waiters_released s i c :
  reachable s → w_notified (worker s) = true →
  callers s !! i = Some c → c_in_wait c = true →
  ∃ sched s',
    Forall (λ l, caller_label l = true) sched ∧
    run sched s = Some s' ∧
    (∃ c', callers s' !! i = Some c' ∧ c_in_wait c' = false).
Proof.
  intros Hs Hn Hc Hw.
  assert (mIsInitialized s = true) as Hflag.
  { destruct (lifecycle_invariant _ Hs) as [-> _]. by apply w_notified_initialized. }
  destruct (decide (c_holds_init c = true)) as [Hh|Hh].
  { destruct (wait_holder_leaves s i c) as (sched & s' & ? & ? & _ & _ & _ & ?); eauto. }
  destruct (decide (c_asleep c = true)) as [Ha|Ha].
  { destruct (barrier_invariant _ Hs) as (_ & B & _). specialize (B _ _ Hc Ha). congruence. }
  assert (∃ r, c = C_initLock r ∨ c = C_initWake r) as Hentry.
  { destruct c; try done; eauto. }
  destruct (mInitializedMutex s) as [t|] eqn:Hm.
  2: by eapply wait_entry_leaves.
  apply (init_lock_invariant _ Hs) in Hm. destruct t as [| |j]; simpl in Hm.
  - by destruct (worker s).
  - done.
  - destruct (callers s !! j) as [cj|] eqn:Hcj; simpl in Hm; [|done].
    assert (j ≠ i) as Hji by (intros ->; by simplify_eq).
    destruct (wait_holder_leaves s j cj) as (sched1 & s1 & ? & Hrun1 & ? & ? & Hothers & _);
      [done..|].
    destruct (wait_entry_leaves s1 i c) as (sched2 & s2 & ? & Hrun2 & ?); [done..| |done|].
    { by rewrite Hothers. }
    exists (sched1 ++ sched2), s2. split_and!; [by apply Forall_app| |done].
    by rewrite run_app, Hrun1.
Qed.

Lemma wait_ignores_queue_lock s i c m :
  callers s !! i = Some c → c_in_wait c = true →
  step (T_caller i) (set_mThreadMutex m s) = set_mThreadMutex m <$> step (T_caller i) s.
Proof.
  intros Hc Hw. simpl. unfold step_caller. simpl. rewrite Hc.
  destruct c; try done; simpl.
  - by destruct (mInitializedMutex s).
  - by destruct (mIsInitialized s).
  - by destruct (mInitializedMutex s).
  - by destruct (after_wait r).
Qed.

Lemma no_new_sleeper l s s' i r :
  step l s = Some s' → mIsInitialized s = true →
  callers s' !! i = Some (C_initSleep r) → callers s !! i = Some (C_initSleep r).
Proof.
  intros Hstep Hflag Hi. step_cases Hstep; simpl in *; try done.
  all: try (revert Hi; caller_cases i0 i; intros; by simplify_eq).
  apply lookup_wake in Hi as (c & Hi & Hc). by destruct c.
Qed.

Lemma flag_written_once l s s' :
  step l s = Some s' → mIsInitialized s' ≠ mIsInitialized s →
  l = T_worker ∧ worker s = W_setInit.
Proof. intros Hstep Hne. by step_cases Hstep. Qed.

(** C3.  On every reachable state:
    - a call of [waitUntilInitialized] that has returned did so with the flag
      set, and the flag is set exactly when [threadMain] is past the line that
      sets it, which comes after [factory()] has returned;
    - the flag is written and read only by the holder of [mInitializedMutex],
      and a caller inside the wait behaves the same whoever holds
      [mThreadMutex];
    - once the worker has executed [notify_all] no caller is blocked in the
      wait, and every caller inside it can return by caller steps alone;
    - once the flag is set it stays set and no caller starts to block, and
      the only transition that changes the flag is the worker's l.79, which
      [threadMain] executes once. *)
Theorem C3_initialization_barrier s :
  reachable s →
  (∀ x, x ∈ returned s → r_request x = waitUntilInitialized →
        mIsInitialized s = true) ∧
  mIsInitialized s = w_initialized (worker s) ∧
  (worker s = W_setInit → mInitializedMutex s = Some Worker) ∧
  (∀ i r, callers s !! i = Some (C_initPred r) →
          mInitializedMutex s = Some (Caller i)) ∧
  (∀ i c m, callers s !! i = Some c → c_in_wait c = true →
     step (T_caller i) (set_mThreadMutex m s)
     = set_mThreadMutex m <$> step (T_caller i) s) ∧
  (w_notified (worker s) = true →
   ∀ i c, callers s !! i = Some c → c_in_wait c = true →
     c_asleep c = false ∧
     ∃ sched s',
       Forall (λ l, caller_label l = true) sched ∧
       run sched s = Some s' ∧
       ∃ c', callers s' !! i = Some c' ∧ c_in_wait c' = false) ∧
  (∀ l s', step l s = Some s' →
     (mIsInitialized s = true →
      mIsInitialized s' = true ∧
      ∀ i r, callers s' !! i = Some (C_initSleep r) →
             callers s !! i = Some (C_initSleep r)) ∧
     (mIsInitialized s' ≠ mIsInitialized s → l = T_worker ∧ worker s = W_setInit)).
Proof.
  intros Hs.
  destruct (barrier_invariant _ Hs) as (_ & B2 & B3).
  destruct (lifecycle_invariant _ Hs) as (L1 & _).
  pose proof (init_lock_invariant _ Hs) as IL.
  split_and!.
  - intros x Hx Hr. apply (B3 x Hx). by rewrite Hr.
  - done.
  - intros Hw. apply IL. simpl. by rewrite Hw.
  - intros i r Hc. apply IL. simpl. by rewrite Hc.
  - intros i c m. apply wait_ignores_queue_lock.
  - intros Hn i c Hc Hw. split.
    + destruct (c_asleep c) eqn:Ha; [|done]. specialize (B2 _ _ Hc Ha). congruence.
    + by eapply waiters_released.
  - intros l s' Hstep. split_and!.
    + intros Hflag. split; [by eapply step_mIsInitialized|].
      intros i r. by eapply no_new_sleeper.
    + by eapply flag_written_once.
Qed.

(** ** Shutdown *)

Lemma engine_released_by_worker l s s' :
  step l s = Some s' →
  non_null (mRenderEngine s) = true → non_null (mRenderEngine s') = false →
  l = T_worker ∧ worker s = W_reset.
Proof.
  intros Hstep H1 H2. step_cases Hstep; simpl in *; try congruence; try done.
  all: by rewrite Heqo in H2.
Qed.

(** C4.  The destructor's log is always a prefix of: [mRunning] cleared with
    [mThreadMutex] held by the destructor's thread, then [notify_one], then
    [join] returned.  [mRunning] is false exactly when the first of these has
    happened.  When the destructor has returned all three have happened, the
    thread function has returned and [mRenderEngine] is null; the transition
    that made it null was the worker's l.95. *)
Theorem C4_shutdown_sequence s :
  reachable s →
  dtor_log s `prefix_of` [D_clear (Some Owner); D_notify; D_join] ∧
  (mRunning s = false ↔ D_clear (Some Owner) ∈ dtor_log s) ∧
  (owner s = O_done →
     dtor_log s = [D_clear (Some Owner); D_notify; D_join] ∧
     worker s = W_done ∧ mRenderEngine s = None) ∧
  (∀ l s', step l s = Some s' →
     non_null (mRenderEngine s) = true → non_null (mRenderEngine s') = false →
     l = T_worker ∧ worker s = W_reset).
Proof.
  intros Hs.
  destruct (lifecycle_invariant _ Hs) as (_ & L2 & L3 & _ & L5).
  destruct (thread_invariant _ Hs) as [_ T2].
  rewrite L5, L3. split_and!.
  - destruct (owner s); simpl.
    1-6: by apply prefix_nil.
    + by exists [D_notify; D_join].
    + by exists [D_join].
    + by exists [D_join].
    + done.
  - destruct (owner s); simpl; split; try done.
    1-6: by intros ?%elem_of_nil.
    all: intros _; by left.
  - intros Ho. rewrite Ho. split_and!; [done|by apply T2|].
    rewrite (T2 Ho) in L2. by destruct (mRenderEngine s).
  - intros l s'. apply engine_released_by_worker.
Qed.

(** ** Lifetime of the resource *)

Lemma engine_written_by_worker l s s' :
  step l s = Some s' → mRenderEngine s' ≠ mRenderEngine s → actor l = Worker.
Proof. intros Hstep Hne. by step_cases Hstep. Qed.

Lemma engine_lifetime_steps l s s' :
  step l s = Some s' →
  non_null (mRenderEngine s') ≠ non_null (mRenderEngine s) →
  (worker s = W_factory ∧ mRenderEngine s' = Some factory ∧ worker s' = W_lock) ∨
  (worker s = W_reset ∧ mRenderEngine s' = None ∧ worker s' = W_return).
Proof.
  intros Hstep Hne. step_cases Hstep; simpl in *; try done; auto.
  all: by rewrite Heqo in Hne.
Qed.

(** C5.  [mRenderEngine] is non-null exactly while [threadMain] is between
    l.72 and l.95: it is set before the loop is entered and is null again
    when the thread function has returned.  Every transition that writes
    [mRenderEngine] is a transition of the worker, and the two that change
    whether it is null are l.72, which stores what the factory returned, and
    l.95.  When the loop condition fails the next line the worker executes is
    l.95. *)
Theorem C5_thread_confined_lifetime s :
  reachable s →
  non_null (mRenderEngine s) = w_engine (worker s) ∧
  (∀ l s', step l s = Some s' →
     (mRenderEngine s' ≠ mRenderEngine s → actor l = Worker) ∧
     (non_null (mRenderEngine s') ≠ non_null (mRenderEngine s) →
        (worker s = W_factory ∧ mRenderEngine s' = Some factory ∧ worker s' = W_lock) ∨
        (worker s = W_reset ∧ mRenderEngine s' = None ∧ worker s' = W_return))) ∧
  (worker s = W_loop → mRunning s = false →
     ∃ s1 s2, step T_worker s = Some s1 ∧ worker s1 = W_reset ∧
              step T_worker s1 = Some s2 ∧ mRenderEngine s2 = None ∧
              worker s2 = W_return).
Proof.
  intros Hs. destruct (lifecycle_invariant _ Hs) as (_ & L2 & _). split_and!.
  - done.
  - intros l s' Hstep. split.
    + by eapply engine_written_by_worker.
    + by eapply engine_lifetime_steps.
  - intros Hw Hr. simpl. unfold step_worker. rewrite Hw, Hr. by eauto 10.
Qed.

(** ** Pushing *)

(** The reading of "a producer's push is not delayed for the duration of a
    task execution": whenever the worker is inside a task, a caller that has
    reached the [lock_guard] of its push can take it. *)
Definition push_never_waits_for_task : Prop :=
  ∀ s, reachable s →
    ∀ task, worker s = W_call task →
    ∀ i r k, callers s !! i = Some (C_lock r k) → is_Some (step (T_caller i) s).

Lemma worker_release l s s' :
  reachable s →
  step l s = Some s' →
  mThreadMutex s = Some Worker → mThreadMutex s' ≠ Some Worker →
  l = T_worker ∧
  ((worker s = W_pred ∧ worker s' = W_sleep ∧
    mFunctionCalls s = [] ∧ mRunning s = true) ∨
   (worker s = W_return ∧ worker s' = W_done)).
Proof.
  intros Hs Hstep Hm Hne. pose proof (queue_lock_invariant _ Hs) as QL.
  step_cases Hstep; simpl in *; try congruence; auto 10.
  1-2: specialize (QL Owner); simpl in QL; rewrite Ho in QL.
  3-4: specialize (QL (Caller i)); simpl in QL; rewrite Hc in QL.
  all: simpl in QL; destruct QL as [_ QL]; specialize (QL eq_refl); congruence.
Qed.

(** C6, as the code has it.  A caller's push needs [mThreadMutex] and nothing
    else: its [lock_guard] can be taken exactly when the mutex is free, and
    while the caller holds the mutex to push it can always take its next
    step.  The worker holds [mThreadMutex] while it is inside a task, so no
    push can proceed during a task; the worker does not hold it while
    blocked in the condition wait, and it gives it up only by entering that
    wait with the queue empty and [mRunning] true, or when the thread
    function returns. *)
Theorem C6_push_waits_only_for_lock s :
  reachable s →
  (∀ i r k, callers s !! i = Some (C_lock r k) →
     (is_Some (step (T_caller i) s) ↔ mThreadMutex s = None)) ∧
  (∀ i r k,
     callers s !! i = Some (C_push r k) ∨ callers s !! i = Some (C_unlock r k) →
     is_Some (step (T_caller i) s)) ∧
  (∀ task, worker s = W_call task →
     mThreadMutex s = Some Worker ∧
     ∀ i r k, callers s !! i = Some (C_lock r k) → step (T_caller i) s = None) ∧
  (worker s = W_sleep → mThreadMutex s ≠ Some Worker) ∧
  (∀ l s', step l s = Some s' →
     mThreadMutex s = Some Worker → mThreadMutex s' ≠ Some Worker →
     l = T_worker ∧
     ((worker s = W_pred ∧ worker s' = W_sleep ∧
       mFunctionCalls s = [] ∧ mRunning s = true) ∨
      (worker s = W_return ∧ worker s' = W_done))).
Proof.
  intros Hs. pose proof (queue_lock_invariant _ Hs Worker) as QL. simpl in QL.
  split_and!.
  - intros i r k Hc. simpl. unfold step_caller. rewrite Hc.
    destruct (mThreadMutex s); split; intros H; try done; by destruct H.
  - intros i r k [Hc|Hc]; simpl; unfold step_caller; rewrite Hc; eauto.
  - intros task Hw. assert (mThreadMutex s = Some Worker) as Hm.
    { apply QL. by rewrite Hw. }
    split; [done|]. intros i r k Hc. simpl. unfold step_caller. by rewrite Hc, Hm.
  - intros Hw Hm. apply QL in Hm. by rewrite Hw in Hm.
  - intros l s'. by apply worker_release.
Qed.

(** ** Results and failures *)

(** What the resource's own operation returns for a blocking request, on
    instance state [e]. *)
Definition resource_result (r : request) (e : instance) : option value :=
  match r with
  | dump result => Some (V_string (re_dump result e).2)
  | genTextures _ _ | deleteTextures _ _ | setViewportAndProjection _ _ => Some V_void
  | useProtectedContext b => Some (V_bool (re_useProtectedContext b e).2)
  | cleanupPostRender mode => Some (V_bool (re_cleanupPostRender mode e).2)
  | drawLayers req => Some (V_status (re_drawLayers req e).2)
  | getContextPriority => Some (V_int (re_getContextPriority e).2)
  | _ => None
  end.

Lemma call_closure_result r p k e q v :
  pushed_closure r p = Some k → (call_closure k e).2 = Some (q, v) →
  resource_result r e = Some v.
Proof.
  destruct r; simpl; intros Hk Hout; try done.
  all: injection Hk as <-; simpl in Hout; try by simplify_eq.
  all: repeat case_match; simpl in *; by simplify_eq.
Qed.

(** After a task returns, whatever it returned, the worker goes on to the
    next queued task. *)
Lemma run_cons l sched s s1 :
  step l s = Some s1 → run (l :: sched) s = run sched s1.
Proof. intros H. simpl. by rewrite H. Qed.

Lemma worker_next_task s next rest :
  worker s = W_pred → mRunning s = true → mFunctionCalls s = next :: rest →
  ∃ s', run [T_worker; T_worker; T_worker] s = Some s' ∧
        worker s' = W_call next ∧ mFunctionCalls s' = rest.
Proof.
  intros Hw Hr Hq.
  pose (s1 := set_worker W_loop s).
  pose (s2 := set_worker W_empty s1).
  pose (s3 := set_worker (W_call next)
                (set_timeline (timeline s2 ++ [X_begin next])
                   (set_mFunctionCalls rest s2))).
  exists s3. split; [|done].
  rewrite (run_cons _ _ _ s1).
  2: { unfold step, step_worker, work_or_stop. by rewrite Hw, Hr, Hq. }
  rewrite (run_cons _ _ _ s2).
  2: { unfold step, step_worker. change (worker s1) with W_loop. cbv iota.
       change (mRunning s1) with (mRunning s). by rewrite Hr. }
  rewrite (run_cons _ _ _ s3); [done|].
  unfold step, step_worker. change (worker s2) with W_empty. cbv iota.
  change (mFunctionCalls s2) with (mFunctionCalls s). by rewrite Hq.
Qed.

Lemma worker_continues s task :
  reachable s → worker s = W_call task →
  ∃ e s1,
    mRenderEngine s = Some e ∧
    step T_worker s = Some s1 ∧
    worker s1 = W_pred ∧
    mFunctionCalls s1 = mFunctionCalls s ∧
    mRunning s1 = true ∧
    executed s1 = executed s ++ [(task, e)] ∧
    (∀ next rest, mFunctionCalls s = next :: rest →
       ∃ s4, run [T_worker; T_worker; T_worker] s1 = Some s4 ∧
             worker s4 = W_call next ∧ mFunctionCalls s4 = rest).
Proof.
  intros Hs Hw. destruct (lifecycle_invariant _ Hs) as (_ & L2 & _ & L4 & _).
  rewrite Hw in L2, L4. simpl in *. specialize (L4 eq_refl).
  destruct (mRenderEngine s) as [e|] eqn:He; [|done].
  destruct (call_closure task e) as [e' out] eqn:Hcall.
  eexists e, _. split; [done|]. split.
  { unfold step_worker. by rewrite Hw, He, Hcall. }
  split_and!; try done.
  intros next rest Hq. by apply worker_next_task.
Qed.

(** C7.  A blocking call that has returned returned what the resource's
    operation returned when the worker ran the call's lambda (for
    [drawLayers], the [status_t] of the instance's [drawLayers]).  When the
    worker is inside a task, its next step returns from it and logs exactly
    one execution, with the queue and [mRunning] untouched, and if a task is
    queued the three steps after that start it: none of this depends on the
    value the task produced. *)
Theorem C7_error_passthrough s :
  reachable s →
  (∀ x, x ∈ returned s → declares_promise (r_request x) = true →
     ∃ p k e,
       r_channel x = Some p ∧ pushed_closure (r_request x) p = Some k ∧
       (k, e) ∈ executed s ∧
       resource_result (r_request x) e = Some (r_value x)) ∧
  (∀ x req, x ∈ returned s → r_request x = drawLayers req →
     ∃ p e, (L_drawLayers p req, e) ∈ executed s ∧
            r_value x = V_status (re_drawLayers req e).2) ∧
  (∀ task, worker s = W_call task →
     ∃ e s1,
       mRenderEngine s = Some e ∧
       step T_worker s = Some s1 ∧
       worker s1 = W_pred ∧
       mFunctionCalls s1 = mFunctionCalls s ∧
       mRunning s1 = true ∧
       executed s1 = executed s ++ [(task, e)] ∧
       (∀ next rest, mFunctionCalls s = next :: rest →
          ∃ s4, run [T_worker; T_worker; T_worker] s1 = Some s4 ∧
                worker s4 = W_call next ∧ mFunctionCalls s4 = rest)).
Proof.
  intros Hs.
  assert (∀ x, x ∈ returned s → declares_promise (r_request x) = true →
     ∃ p k e,
       r_channel x = Some p ∧ pushed_closure (r_request x) p = Some k ∧
       (k, e) ∈ executed s ∧
       resource_result (r_request x) e = Some (r_value x)) as Hret.
  { intros x Hx Hd.
    destruct (returned_blocking _ _ Hs Hx Hd) as (p & k & e & ? & ? & ? & ? & _).
    exists p, k, e. split_and!; try done. by eapply call_closure_result. }
  split_and!; [done| |intros task; by apply worker_continues].
  intros x req Hx Hr. destruct (Hret x Hx) as (p & k & e & _ & Hk & Hke & Hres).
  { by rewrite Hr. }
  rewrite Hr in Hk, Hres. simpl in *. simplify_eq. eauto.
Qed.

(** ** Direct reads *)

Lemma invoke_direct i r s s' :
  direct r = true → step (T_invoke i r) s = Some s' →
  callers s' !! i = Some (C_initLock r) ∧
  mFunctionCalls s' = mFunctionCalls s ∧ enqueued s' = enqueued s ∧
  promises s' = promises s.
Proof.
  intros Hd Hstep. simpl in Hstep. unfold invoke, enter in Hstep.
  rewrite (direct_no_promise _ Hd) in Hstep.
  rewrite (proj2 (pushed_closure_None r _) Hd) in Hstep.
  destruct (owner s); try done.
  destruct (callers s !! i) as [[]|] eqn:Hc; try done. simplify_eq. simpl.
  split_and!; try done. apply list_lookup_insert_eq. by eapply lookup_lt_Some.
Qed.

Lemma direct_step_leaves_queue s i c r s' :
  reachable s → callers s !! i = Some c → request_of c = Some r → direct r = true →
  step (T_caller i) s = Some s' →
  mFunctionCalls s' = mFunctionCalls s ∧ enqueued s' = enqueued s.
Proof.
  intros Hs Hc Hr Hd Hstep.
  pose proof (cpc_wf_invariant _ _ _ Hs Hc) as Hwf.
  destruct (c_queueing c) eqn:Hq.
  { pose proof (cpc_wf_queued _ _ Hwf Hr Hq). congruence. }
  simpl in Hstep. unfold step_caller in Hstep. rewrite Hc in Hstep.
  destruct c; simpl in *; try done;
    repeat (match type of Hstep with
            | context [match ?x with _ => _ end] => destruct x
            end; try done);
    by simplify_eq.
Qed.

(** C8.  Invoking [waitUntilInitialized] or an accessor starts at the wait
    (l.99) and allocates no promise, and neither the invocation nor any later
    step of the caller inside that method changes [mFunctionCalls].  A caller
    at an unguarded read is in an accessor other than [isProtected], has seen
    the flag set, and its step returns what the accessor reads from the
    instance as it is at that moment.  A caller at the guarded read is in
    [isProtected], has seen the flag set and holds [mThreadMutex], so the
    worker is not inside a task; its step reads [isProtected] from the
    instance. *)
Theorem C8_direct_read s :
  reachable s →
  (∀ i r s', direct r = true → step (T_invoke i r) s = Some s' →
     callers s' !! i = Some (C_initLock r) ∧
     mFunctionCalls s' = mFunctionCalls s ∧ enqueued s' = enqueued s ∧
     promises s' = promises s) ∧
  (∀ i c r s', callers s !! i = Some c → request_of c = Some r → direct r = true →
     step (T_caller i) s = Some s' →
     mFunctionCalls s' = mFunctionCalls s ∧ enqueued s' = enqueued s) ∧
  (∀ i r, callers s !! i = Some (C_read r) →
     direct r = true ∧ r ≠ isProtected ∧ r ≠ waitUntilInitialized ∧
     mIsInitialized s = true ∧
     ∀ s', step (T_caller i) s = Some s' →
       ∃ e v, mRenderEngine s = Some e ∧ direct_read r e = Some v ∧
              returned s' = returned s ++ [mkRet i r None v]) ∧
  (∀ i r, callers s !! i = Some (C_readLocked r) →
     r = isProtected ∧ mIsInitialized s = true ∧
     mThreadMutex s = Some (Caller i) ∧ current (worker s) = [] ∧
     ∀ s', step (T_caller i) s = Some s' →
       ∃ e, mRenderEngine s = Some e ∧
            callers s' !! i = Some (C_readUnlock r (V_bool (re_isProtected e)))) ∧
  (∀ i r v s', callers s !! i = Some (C_readUnlock r v) →
     step (T_caller i) s = Some s' →
     returned s' = returned s ++ [mkRet i r None v]).
Proof.
  intros Hs.
  destruct (barrier_invariant _ Hs) as (B1 & _ & _).
  pose proof (queue_lock_invariant _ Hs) as QL.
  split_and!.
  - intros i r s'. apply invoke_direct.
  - intros i c r s'. by apply direct_step_leaves_queue.
  - intros i r Hc.
    destruct (cpc_wf_invariant _ _ _ Hs Hc) as [Hd Ha]. split_and!.
    + done.
    + intros ->. by simplify_eq.
    + intros ->. by simplify_eq.
    + by eapply B1.
    + intros s' Hstep. simpl in Hstep. unfold step_caller in Hstep.
      rewrite Hc in Hstep.
      destruct (mRenderEngine s) as [e|]; [|done].
      destruct (direct_read r e) as [v|] eqn:Hv; [|done].
      simplify_eq. by exists e, v.
  - intros i r Hc.
    pose proof (cpc_wf_invariant _ _ _ Hs Hc) as Hwf. simpl in Hwf. subst r.
    assert (mThreadMutex s = Some (Caller i)) as Hm.
    { apply QL. simpl. by rewrite Hc. }
    split_and!; try done.
    + by eapply B1.
    + destruct (current_cases (worker s)) as [?|[k Hk]]; [done|].
      assert (mThreadMutex s = Some Worker); [|congruence].
      apply QL. simpl. by destruct (worker s).
    + intros s' Hstep. simpl in Hstep. unfold step_caller in Hstep.
      rewrite Hc in Hstep.
      destruct (mRenderEngine s) as [e|]; [|done]. simpl in Hstep. simplify_eq.
      exists e. split; [done|]. simpl.
      apply list_lookup_insert_eq. by eapply lookup_lt_Some.
  - intros i r v s' Hc Hstep. simpl in Hstep. unfold step_caller in Hstep.
    rewrite Hc in Hstep. by simplify_eq.
Qed.

(** ** Tasks and initialisation *)

Lemma nothing_executed_before_init s :
  reachable s → w_initialized (worker s) = false → executed s = [].
Proof.
  induction 1 as [n|s l s' Hs IH Hstep] using reachable_invariant; [done|].
  step_cases Hstep; simpl in *; pc_rewrite; simpl in *; try done.
  all: try (intros; apply IH; by destruct (worker s)).
  intros _. apply IH. by rewrite (unborn_at_spawn _ Hs Ho).
Qed.

Lemma worker_first_task s next rest :
  worker s = W_loop → mRunning s = true → mFunctionCalls s = next :: rest →
  ∃ s', run [T_worker; T_worker] s = Some s' ∧
        worker s' = W_call next ∧ mFunctionCalls s' = rest.
Proof.
  intros Hw Hr Hq.
  pose (s1 := set_worker W_empty s).
  pose (s2 := set_worker (W_call next)
                (set_timeline (timeline s1 ++ [X_begin next])
                   (set_mFunctionCalls rest s1))).
  exists s2. split; [|done].
  rewrite (run_cons _ _ _ s1).
  2: { unfold step, step_worker. by rewrite Hw, Hr. }
  rewrite (run_cons _ _ _ s2); [done|].
  unfold step, step_worker. change (worker s1) with W_empty. cbv iota.
  change (mFunctionCalls s1) with (mFunctionCalls s). by rewrite Hq.
Qed.

(** C9.  When the worker is inside a task the flag is set and
    [mRenderEngine] is non-null; if any task has ever been started the flag
    is set.  While the flag is unset the queue holds every task pushed so
    far, in push order, and a caller's push appends to it whatever the worker
    is doing.  Once the worker is at the loop head with [mRunning] true and a
    non-empty queue, its next two steps start the task at the front. *)
Theorem C9_no_task_before_initialization s :
  reachable s →
  (∀ task, worker s = W_call task →
     mIsInitialized s = true ∧ ∃ e, mRenderEngine s = Some e) ∧
  (timeline s ≠ [] → mIsInitialized s = true) ∧
  (mIsInitialized s = false → mFunctionCalls s = enqueued s) ∧
  (∀ i r k, callers s !! i = Some (C_push r k) →
     ∃ s', step (T_caller i) s = Some s' ∧
           mFunctionCalls s' = mFunctionCalls s ++ [k] ∧
           enqueued s' = enqueued s ++ [k]) ∧
  (worker s = W_loop → mRunning s = true →
   ∀ next rest, mFunctionCalls s = next :: rest →
     ∃ s', run [T_worker; T_worker] s = Some s' ∧
           worker s' = W_call next ∧ mFunctionCalls s' = rest).
Proof.
  intros Hs.
  destruct (lifecycle_invariant _ Hs) as (L1 & L2 & _).
  destruct (fifo_invariant _ Hs) as [F1 F2].
  pose proof (nothing_executed_before_init _ Hs) as Hpre.
  split_and!.
  - intros task Hw. rewrite L1, Hw. split; [done|].
    rewrite Hw in L2. destruct (mRenderEngine s); [eauto|done].
  - intros Htl. rewrite L1. destruct (w_initialized (worker s)) eqn:Hi; [done|].
    rewrite Hpre in F2 by done. simpl in F2. destruct Htl. rewrite F2.
    by destruct (worker s).
  - intros Hf. rewrite L1 in Hf. rewrite F1, Hpre by done. simpl.
    by destruct (worker s).
  - intros i r k Hc. eexists. split.
    + simpl. unfold step_caller. by rewrite Hc.
    + done.
  - intros Hw Hr next rest. by apply worker_first_task.
Qed.

(** ** Tasks pending at shutdown *)

(** With [mRunning] false no transition dequeues, runs or completes a task
    or touches a promise. *)
Lemma stopped_step l s s' :
  reachable s → mRunning s = false → step l s = Some s' →
  mRunning s' = false ∧ executed s' = executed s ∧ timeline s' = timeline s ∧
  promises s' = promises s ∧ mFunctionCalls s `prefix_of` mFunctionCalls s'.
Proof.
  intros Hs Hr Hstep.
  destruct (lifecycle_invariant _ Hs) as (_ & _ & L3 & L4 & _).
  rewrite Hr in L3, L4.
  step_cases Hstep; simpl in *; pc_rewrite; simpl in *; try done.
  all: try by (split_and!; try done; by apply prefix_app_r).
  all: try congruence.
  all: try by specialize (L4 eq_refl).
Qed.

Lemma stopped_run sched s s' :
  reachable s → mRunning s = false → run sched s = Some s' →
  mRunning s' = false ∧ executed s' = executed s ∧ timeline s' = timeline s ∧
  promises s' = promises s ∧ mFunctionCalls s `prefix_of` mFunctionCalls s'.
Proof.
  revert s. induction sched as [|l sched IH]; intros s Hs Hr Hrun; simpl in Hrun.
  { by simplify_eq. }
  destruct (step l s) as [s1|] eqn:Hstep; [|done].
  destruct (stopped_step _ _ _ Hs Hr Hstep) as (Hr1 & E1 & T1 & P1 & Q1).
  destruct (IH s1) as (? & E2 & T2 & P2 & Q2); [by eapply reachable_step|done..|].
  split_and!; [done|congruence..|by etrans].
Qed.

(** C10.  In a reachable state where [mRunning] is false the worker is not
    inside a task, and the promise of every task still queued is unset.
    Whatever happens from there, the worker starts and completes no further
    task, the queued tasks stay at the front of the queue, and no promise is
    set: the promises of the queued tasks remain unset. *)
Theorem C10_pending_tasks_dropped s :
  reachable s → mRunning s = false →
  current (worker s) = [] ∧
  (∀ k p, k ∈ mFunctionCalls s → promise_of k = Some p →
          promises s !! p = Some None) ∧
  (∀ sched s', run sched s = Some s' →
     mRunning s' = false ∧
     executed s' = executed s ∧ timeline s' = timeline s ∧
     current (worker s') = [] ∧
     mFunctionCalls s `prefix_of` mFunctionCalls s' ∧
     ∀ k p, k ∈ mFunctionCalls s → promise_of k = Some p →
            promises s' !! p = Some None).
Proof.
  intros Hs Hr.
  assert (∀ s0, reachable s0 → mRunning s0 = false → current (worker s0) = []) as Hcur.
  { intros s0 Hs0 Hr0. destruct (lifecycle_invariant _ Hs0) as (_ & _ & _ & L4 & _).
    rewrite Hr0 in L4. destruct (worker s0); simpl in *; try done.
    by specialize (L4 eq_refl). }
  destruct (store_invariant _ Hs) as (_ & S2 & _).
  assert (∀ k p, k ∈ mFunctionCalls s → promise_of k = Some p →
                 promises s !! p = Some None) as Hunset.
  { intros k p Hk Hp. eapply S2; [|done]. apply elem_of_app. by right. }
  split_and!; [by apply Hcur|done|].
  intros sched s' Hrun.
  destruct (stopped_run _ _ _ Hs Hr Hrun) as (Hr' & E & T & P & Q).
  split_and!; try done.
  - apply Hcur; [by eapply reachable_run|done].
  - intros k p Hk Hp. rewrite P. by eapply Hunset.
Qed.

(** * Further properties of the dispatcher *)

(** ** The instance is the sequential replay of the completed tasks *)

(** The instance state after running lambda [k] on [e]. *)
Definition apply_task (e : instance) (k : closure) : instance := (call_closure k e).1.

(** The instance state after running the lambdas [ks] in order, starting
    from [e0]. *)
Definition replay (ks : list closure) (e0 : instance) : instance :=
  foldl apply_task e0 ks.

Definition replay_inv (s : state) : Prop :=
  mRenderEngine s
  = (if w_engine (worker s) then Some (replay (executed s).*1 factory) else None) ∧
  (∀ n k e, executed s !! n = Some (k, e) →
            e = replay (take n (executed s).*1) factory).

Lemma replay_snoc ks k e0 : replay (ks ++ [k]) e0 = apply_task (replay ks e0) k.
Proof. unfold replay. by rewrite foldl_app. Qed.

Lemma replay_invariant s : reachable s → replay_inv s.
Proof.
  induction 1 as [n|s l s' Hs [IH1 IH2] Hstep] using reachable_invariant.
  { split; [done|by intros ???]. }
  pose proof (nothing_executed_before_init _ Hs) as Hpre.
  pose proof (unborn_at_spawn _ Hs) as Hspawn.
  split.
  - step_cases Hstep; simpl in *.
    all: try (rewrite Hspawn in * by done).
    all: pc_rewrite; simpl in *; try done.
    + by rewrite Hpre.
    + rewrite fmap_app. simpl. rewrite replay_snoc. unfold apply_task.
      simplify_eq.
      by match goal with H : call_closure _ _ = _ |- _ => rewrite H end.
  - intros m k e Hm. step_cases Hstep; simpl in *; try by eapply IH2.
    rewrite fmap_app. simpl.
    apply lookup_app_Some in Hm as [Hm|[Hlen Hm]].
    + rewrite take_app_le; [by eapply IH2|].
      rewrite length_fmap. apply Nat.lt_le_incl. by eapply lookup_lt_Some.
    + destruct (m - length (executed s))%nat as [|?] eqn:Hd; simpl in Hm; [|done].
      simplify_eq. assert (m = length (executed s)) as -> by lia.
      rewrite take_app_le by (by rewrite length_fmap).
      rewrite take_ge by (by rewrite length_fmap).
      done.
Qed.

(** X1.  While [mRenderEngine] is non-null it is the factory's instance with
    the completed tasks applied one after the other in the order they were
    pushed; and a blocking call that has returned returned what its lambda
    yields on the factory's instance with all tasks pushed before it applied
    in push order. *)
Theorem X1_sequential_replay s :
  reachable s →
  mRenderEngine s
  = (if w_engine (worker s) then Some (replay (executed s).*1 factory) else None) ∧
  (executed s).*1 `prefix_of` enqueued s ∧
  (∀ x p, x ∈ returned s → r_channel x = Some p →
     ∃ n k,
       enqueued s !! n = Some k ∧
       pushed_closure (r_request x) p = Some k ∧
       (call_closure k (replay (take n (enqueued s)) factory)).2
       = Some (p, r_value x)).
Proof.
  intros Hs. destruct (replay_invariant _ Hs) as [R1 R2].
  destruct (fifo_invariant _ Hs) as [F1 _].
  split_and!; [done|by eexists|].
  intros x p Hx Hp.
  destruct (returned_invariant _ Hs _ _ Hx Hp) as (k & e & Hke & Hk & Hout).
  apply list_elem_of_lookup in Hke as [n Hn]. exists n, k.
  pose proof (R2 _ _ _ Hn) as He.
  assert ((executed s).*1 !! n = Some k) as Hn1.
  { by rewrite list_lookup_fmap, Hn. }
  assert (n < length (executed s).*1)%nat as Hlt by (by eapply lookup_lt_Some).
  split_and!; [|done|].
  - rewrite F1. by apply lookup_app_l_Some.
  - rewrite F1, take_app_le by lia. by rewrite <-He.
Qed.

(** ** Promises are set once *)

Lemma set_promise_kept l s s' p v :
  reachable s → step l s = Some s' →
  promises s !! p = Some (Some v) → promises s' !! p = Some (Some v).
Proof.
  intros Hs Hstep Hp. destruct (store_invariant _ Hs) as (_ & S2 & _).
  step_cases Hstep; simpl in *; try done.
  - rewrite lookup_fulfil_ne; [done|]. intros q w -> ->.
    assert (promises s !! p = Some None); [|congruence].
    eapply (S2 task); [by left|].
    eapply call_closure_promise.
    by match goal with H : call_closure _ _ = _ |- _ => rewrite H end.
  - by apply lookup_app_l_Some.
  - by apply lookup_app_l_Some.
Qed.

(** X2.  No promise is captured by two pushed lambdas; when the worker is
    inside a lambda that captured a promise, that promise is allocated and
    not yet set, so the [set_value] at the end of the lambda is the first
    write to it; and a promise that is set keeps its value. *)
Theorem X2_promise_set_once s :
  reachable s →
  NoDup (omap promise_of (enqueued s)) ∧
  (∀ task p, worker s = W_call task → promise_of task = Some p →
             promises s !! p = Some None) ∧
  (∀ l s' p v, step l s = Some s' →
     promises s !! p = Some (Some v) → promises s' !! p = Some (Some v)).
Proof.
  intros Hs. destruct (chan_owner_invariant _ Hs) as [_ O2].
  destruct (store_invariant _ Hs) as (_ & S2 & _).
  split_and!; [done| |].
  - intros task p Hw Hp. eapply (S2 task); [rewrite Hw; by left|done].
  - intros l s' p v. by apply set_promise_kept.
Qed.

(** ** Captured references stay valid *)




(** ** No lost wake-up *)

(** The caller has pushed and has not yet executed [notify_one]. *)
Definition c_will_notify (c : cpc) : bool :=
  match c with
  | C_unlock _ _ | C_notify _ _ => true
  | _ => false
  end.

Definition wakeup_inv (s : state) : Prop :=
  worker s = W_sleep →
  (mFunctionCalls s ≠ [] →
     ∃ i c, callers s !! i = Some c ∧ c_will_notify c = true) ∧
  (mRunning s = false → owner s = O_notify).

Lemma wakeup_invariant s : reachable s → wakeup_inv s.
Proof.
  induction 1 as [n|s l s' Hs IH Hstep] using reachable_invariant; [done|].
  unfold wakeup_inv in *.
  step_cases Hstep; simpl in *; pc_rewrite; simpl in *; try done.
  all: try (by destruct (mRunning s)).
  all: try (intros Hw'; rewrite Hw' in *; done).
  all: intros Hw'; specialize (IH Hw') as [IH1 IH2].
  all: try (split; [done|]; intros Hr; specialize (IH2 Hr); congruence).
  all: split; [|try done; intros Hr; specialize (IH2 Hr); congruence].
  all: try (intros _; exists i; eexists; split;
            [apply list_lookup_insert_eq; by eapply lookup_lt_Some|done]).
  all: intros Hq; destruct (IH1 Hq) as (j & cj & Hj & Hcj).
  all: try (by exists j, cj).
  all: destruct (decide (i = j)) as [->|Hij];
    [simplify_eq|exists j, cj; by rewrite list_lookup_insert_ne].
Qed.

(** X4.  Whenever the worker is blocked in the wait on [mCondition], either
    the queue is empty or some caller that has pushed is still on its way to
    [notify_one]; and if [mRunning] has been cleared the destructor is about
    to execute its [notify_one].  No push and no shutdown request is left
    without a wake-up. *)
Theorem X4_no_lost_wakeup s :
  reachable s → worker s = W_sleep →
  mThreadMutex s ≠ Some Worker ∧
  (mFunctionCalls s ≠ [] →
     ∃ i c, callers s !! i = Some c ∧ c_will_notify c = true) ∧
  (mRunning s = false → owner s = O_notify).
Proof.
  intros Hs Hw. split.
  - intros Hm. apply (queue_lock_invariant _ Hs) in Hm. simpl in Hm.
    by rewrite Hw in Hm.
  - by apply wakeup_invariant.
Qed.

(** ** Calls in program order *)

(** The lambda of a completed call of a queued method. *)
Definition closure_of_ret (x : ret) : option closure :=
  pushed_closure (r_request x) (default 0%nat (r_channel x)).

(** The lambda a caller has pushed in the method it is in. *)
Definition pushed_by (c : cpc) : option closure :=
  match c with
  | C_unlock _ k | C_notify _ k => Some k
  | C_get r p => pushed_closure r p
  | _ => None
  end.

Lemma pushed_closure_any r p q k :
  pushed_closure r p = Some k → promise_of k = None → pushed_closure r q = Some k.
Proof. destruct r; simpl; intros; by simplify_eq. Qed.

Definition pushed_inv (s : state) : Prop :=
  (∀ i c k, callers s !! i = Some c → pushed_by c = Some k → k ∈ enqueued s) ∧
  (∀ x k, x ∈ returned s → closure_of_ret x = Some k → k ∈ enqueued s).

Lemma pushed_invariant s : reachable s → pushed_inv s.
Proof.
  induction 1 as [n|s l s' Hs [IH1 IH2] Hstep] using reachable_invariant.
  { split; [by intros ??? ->%lookup_replicate_idle|by intros ?? ?%elem_of_nil]. }
  pose proof (λ i c, cpc_wf_invariant s i c Hs) as Hwf.
  split.
  - intros j cj k Hj Hk. step_cases Hstep; simpl in *.
    all: try (apply lookup_wake in Hj as (c0 & Hj & ->);
              assert (pushed_by (wake c0) = pushed_by c0) as Hwk by (by destruct c0);
              rewrite Hwk in Hk).
    all: try (by eapply IH1).
    all: revert Hj; caller_cases i j; intros; simplify_eq; simpl in *; simplify_eq.
    all: try (by eapply IH1).
    all: try (apply elem_of_app; left; by eapply IH1).
    all: try (apply elem_of_app; right; by left).
    all: try (by eapply (IH1 j); [exact Hc|]).
    all: destruct (Hwf _ _ Hc) as [q Hq]; pushed_promise; simplify_eq.
    all: by eapply (IH1 j); [exact Hc|].
  - intros x k Hx Hk. step_cases Hstep; simpl in *; try by eapply IH2.
    all: try (apply elem_of_app; left; by eapply IH2).
    all: rewrite elem_of_app, list_elem_of_singleton in Hx;
      destruct Hx as [Hx| ->]; [by eapply IH2|].
    all: unfold closure_of_ret in Hk; simpl in Hk.
    all: try (by eapply (IH1 i); [exact Hc|]).
    1-2: destruct (Hwf _ _ Hc) as [q Hq];
      rewrite (pushed_closure_any _ _ 0%nat _ Hq) in Hk by done; simplify_eq;
      by eapply (IH1 i); [exact Hc|].
    all: specialize (Hwf _ _ Hc); simpl in Hwf.
    + destruct Hwf as [Hd _]. apply pushed_closure_Some in Hk. congruence.
    + by subst r.
Qed.

Lemma step_enqueued_grows l s s' :
  step l s = Some s' → enqueued s `prefix_of` enqueued s'.
Proof. intros Hstep. step_cases Hstep; simpl; try done. by apply prefix_app_r. Qed.

Lemma run_enqueued_grows sched s s' :
  run sched s = Some s' → enqueued s `prefix_of` enqueued s'.
Proof.
  revert s. induction sched as [|l sched IH]; intros s Hrun; simpl in Hrun.
  { by simplify_eq. }
  destruct (step l s) as [s1|] eqn:Hstep; [|done].
  etrans; [by eapply step_enqueued_grows|by apply IH].
Qed.

(** X5.  When a method that pushes a lambda has returned, blocking or not,
    that lambda is in the push log, and the push log only ever grows at its
    end.  A lambda pushed by a later call therefore comes after it in the
    order the worker follows. *)
Theorem X5_return_after_push s :
  reachable s →
  (∀ x k, x ∈ returned s → closure_of_ret x = Some k → k ∈ enqueued s) ∧
  (∀ sched s', run sched s = Some s' → enqueued s `prefix_of` enqueued s').
Proof.
  intros Hs. split.
  - by apply pushed_invariant.
  - intros sched s'. apply run_enqueued_grows.
Qed.

(** X6.  A blocking call whose promise was allocated after state [s0] ran on
    an instance to which every task pushed up to [s0] had been applied, in
    push order, before it: its lambda sits in the push log behind all of
    them and its result is the lambda's result on the replay of the tasks in
    front of it. *)
Theorem X6_program_order s0 sched s x p :
  reachable s0 → run sched s0 = Some s →
  (length (promises s0) ≤ p)%nat →
  x ∈ returned s → r_channel x = Some p →
  ∃ n k,
    enqueued s !! n = Some k ∧
    pushed_closure (r_request x) p = Some k ∧
    enqueued s0 `prefix_of` take n (enqueued s) ∧
    (call_closure k (replay (take n (enqueued s)) factory)).2
    = Some (p, r_value x).
Proof.
  intros Hs0 Hrun Hp Hx Hch.
  assert (reachable s) as Hs by (by eapply reachable_run).
  destruct (replay_invariant _ Hs) as [_ R2].
  destruct (fifo_invariant _ Hs) as [F1 _].
  destruct (returned_invariant _ Hs _ _ Hx Hch) as (k & e & Hke & Hk & Hout).
  apply list_elem_of_lookup in Hke as [n Hn]. exists n, k.
  pose proof (R2 _ _ _ Hn) as He.
  assert ((executed s).*1 !! n = Some k) as Hn1 by (by rewrite list_lookup_fmap, Hn).
  assert (n < length (executed s).*1)%nat as Hlt by (by eapply lookup_lt_Some).
  assert (enqueued s !! n = Some k) as Hnk.
  { rewrite F1. by apply lookup_app_l_Some. }
  destruct (run_enqueued_grows _ _ _ Hrun) as [rest Hrest].
  split_and!; [done..| |].
  - destruct (decide (n < length (enqueued s0))%nat) as [Hlt0|Hge].
    + exfalso. rewrite Hrest, lookup_app_l in Hnk by done.
      destruct (chan_bound_invariant _ Hs0) as [_ B2].
      assert (p < length (promises s0))%nat; [|lia].
      eapply (B2 k); [by eapply list_elem_of_lookup_2|].
      by eapply call_closure_promise.
    + rewrite Hrest, take_app_ge by lia. by apply prefix_app_r.
  - rewrite F1, take_app_le by lia. by rewrite <-He.
Qed.

(** ** A fire-and-forget call returns on its own *)

Lemma notify_one_fields s :
  callers (notify_one s) = callers s ∧ returned (notify_one s) = returned s ∧
  mFunctionCalls (notify_one s) = mFunctionCalls s ∧
  executed (notify_one s) = executed s ∧ timeline (notify_one s) = timeline s ∧
  mThreadMutex (notify_one s) = mThreadMutex s.
Proof. unfold notify_one. by destruct (sleeping (worker s)). Qed.

(** X7.  A caller that is at the lock of the push of a method without a
    promise, with [mThreadMutex] free, completes the method in four steps of
    its own: the lambda is appended to the queue, the mutex is free again,
    the method has returned, and no task has been started or completed in
    the meantime. *)
Theorem X7_fire_and_forget s i r k :
  callers s !! i = Some (C_lock r k) → promise_of k = None →
  mThreadMutex s = None →
  ∃ s', run (replicate 4 (T_caller i)) s = Some s' ∧
        callers s' !! i = Some C_idle ∧
        returned s' = returned s ++ [mkRet i r None V_void] ∧
        mFunctionCalls s' = mFunctionCalls s ++ [k] ∧
        mThreadMutex s' = None ∧
        executed s' = executed s ∧ timeline s' = timeline s.
Proof.
  intros Hc Hk Hm.
  assert (is_Some (callers s !! i)) as Hi by eauto.
  pose (s1 := goto i (C_push r k) (set_mThreadMutex (Some (Caller i)) s)).
  pose (s2 := goto i (C_unlock r k)
                (set_enqueued (enqueued s1 ++ [k])
                   (set_mFunctionCalls (mFunctionCalls s1 ++ [k]) s1))).
  pose (s3 := goto i (C_notify r k) (set_mThreadMutex None s2)).
  pose (s4 := finish i r None V_void (notify_one s3)).
  assert (callers s1 !! i = Some (C_push r k)) as H1 by (by apply lookup_goto_eq).
  assert (callers s2 !! i = Some (C_unlock r k)) as H2.
  { apply lookup_goto_eq. simpl. eauto. }
  assert (callers s3 !! i = Some (C_notify r k)) as H3.
  { apply lookup_goto_eq. simpl. eauto. }
  exists s4. split.
  { unfold replicate.
    rewrite (run_cons _ _ _ s1) by (unfold step, step_caller; by rewrite Hc, Hm).
    rewrite (run_cons _ _ _ s2) by (unfold step, step_caller; by rewrite H1).
    rewrite (run_cons _ _ _ s3) by (unfold step, step_caller; by rewrite H2).
    rewrite (run_cons _ _ _ s4); [done|].
    unfold step, step_caller. by rewrite H3, Hk. }
  destruct (notify_one_fields s3) as (N1 & N2 & N3 & N4 & N5 & N6).
  unfold s4, finish. split_and!.
  - apply lookup_goto_eq. simpl. rewrite N1. eauto.
  - simpl. by rewrite N2.
  - simpl. by rewrite N3.
  - simpl. by rewrite N6.
  - simpl. by rewrite N4.
  - simpl. by rewrite N5.
Qed.

(** ** Mutual exclusion *)

(** X8.  [mThreadMutex] (resp. [mInitializedMutex]) names a thread exactly
    when that thread is between an acquisition and the matching release, so
    at most one thread is inside each critical section; and the only thread
    that is ever inside both at once is the worker, which takes
    [mInitializedMutex] while holding [mThreadMutex]. *)
Theorem X8_mutual_exclusion s :
  reachable s →
  (∀ t, mThreadMutex s = Some t ↔ in_queue_section s t = true) ∧
  (∀ t, mInitializedMutex s = Some t ↔ in_init_section s t = true) ∧
  (∀ t1 t2, in_queue_section s t1 = true → in_queue_section s t2 = true → t1 = t2) ∧
  (∀ t1 t2, in_init_section s t1 = true → in_init_section s t2 = true → t1 = t2) ∧
  (∀ t, in_queue_section s t = true → in_init_section s t = true → t = Worker).
Proof.
  intros Hs. split_and!.
  - by apply queue_lock_invariant.
  - by apply init_lock_invariant.
  - intros t1 t2. by apply queue_lock_exclusive.
  - intros t1 t2. by apply init_lock_exclusive.
  - intros [| |j]; simpl; try done.
    by destruct (callers s !! j) as [[]|].
Qed.

(** ** A blocking call can complete *)

(** [threadMain] has left the loop. *)
Definition w_exiting (w : wpc) : bool :=
  match w with
  | W_reset | W_return | W_done => true
  | _ => false
  end.

Lemma exiting_invariant s :
  reachable s → w_exiting (worker s) = true → mRunning s = false.
Proof.
  induction 1 as [n|s l s' Hs IH Hstep] using reachable_invariant; [done|].
  pose proof (unborn_at_spawn _ Hs) as Hspawn.
  step_cases Hstep; simpl in *; pc_rewrite; simpl in *; try done.
  all: try (by apply IH).
Qed.

(** Steps the worker still has to take before it is inside a task, when the
    queue is not empty. *)
Definition wr (w : wpc) : nat :=
  match w with
  | W_call _ => 0
  | W_empty => 1
  | W_loop => 2
  | W_pred => 3
  | W_wake | W_notifyAll => 4
  | W_sleep | W_unlockInit => 5
  | W_setInit => 6
  | W_lockInit => 7
  | W_lock => 8
  | W_factory => 9
  | _ => 10
  end.

(** Steps a caller still has to take before it has released what it holds
    and signalled what it pushed. *)
Definition cr (c : cpc) : nat :=
  match c with
  | C_push _ _ => 3
  | C_unlock _ _ | C_readLocked _ | C_initPred _ => 2
  | C_notify _ _ | C_readUnlock _ _ | C_initUnlock _ => 1
  | _ => 0
  end.

Definition distance (s : state) : nat :=
  wr (worker s) * (3 * length (callers s) + 1) + sum_list_with cr (callers s).

Lemma sum_cr_bound cs : (sum_list_with cr cs ≤ 3 * length cs)%nat.
Proof.
  induction cs as [|c cs IH]; simpl; [lia|].
  assert (cr c ≤ 3)%nat by (destruct c; simpl; lia). lia.
Qed.

Lemma sum_cr_insert cs j c c' :
  cs !! j = Some c →
  (sum_list_with cr (<[j:=c']> cs) + cr c = sum_list_with cr cs + cr c')%nat.
Proof.
  revert j. induction cs as [|c0 cs IH]; intros [|j] Hj; simpl in *; try done.
  - simplify_eq. lia.
  - specialize (IH _ Hj). lia.
Qed.

Lemma sum_cr_wake cs : sum_list_with cr (wake <$> cs) = sum_list_with cr cs.
Proof.
  induction cs as [|c cs IH]; csimpl; [done|]. rewrite IH. by destruct c.
Qed.

Lemma distance_worker s s' :
  length (callers s') = length (callers s) →
  (wr (worker s') < wr (worker s))%nat → (distance s' < distance s)%nat.
Proof.
  unfold distance. intros Hl Hw. rewrite Hl.
  pose proof (sum_cr_bound (callers s')) as Hb. rewrite Hl in Hb. nia.
Qed.

Lemma distance_caller s s' j c c' :
  worker s' = worker s → callers s !! j = Some c →
  callers s' = <[j:=c']> (callers s) → (cr c' < cr c)%nat →
  (distance s' < distance s)%nat.
Proof.
  unfold distance. intros -> Hj -> Hc. rewrite length_insert.
  pose proof (sum_cr_insert _ _ _ c' Hj). nia.
Qed.

Definition quiet (l : label) : bool :=
  match l with
  | T_worker | T_caller _ => true
  | _ => false
  end.

(** The lambda of a caller blocked on an unset promise has been pushed and
    has not completed. *)
Lemma waiting_pending s i r p :
  reachable s → callers s !! i = Some (C_get r p) → promises s !! p = Some None →
  ∃ k, pushed_closure r p = Some k ∧ promise_of k = Some p ∧
       k ∈ current (worker s) ++ mFunctionCalls s.
Proof.
  intros Hs Hc Hp.
  destruct (cpc_wf_invariant _ _ _ Hs Hc) as (k & Hk & Hkp).
  exists k. split_and!; [done..|].
  destruct (pushed_invariant _ Hs) as [P1 _].
  pose proof (P1 _ _ k Hc Hk) as Hin.
  destruct (fifo_invariant _ Hs) as [F1 _]. rewrite F1 in Hin.
  apply elem_of_app in Hin as [Hin|Hin]; [|done].
  apply list_elem_of_fmap in Hin as ([k' e] & -> & Hin). simpl in *.
  destruct (call_closure_fulfils k' e p Hkp) as [v Hv].
  destruct (store_invariant _ Hs) as (_ & _ & _ & S4).
  rewrite (S4 _ _ _ _ Hin Hv) in Hp. done.
Qed.

(** A caller that holds [mThreadMutex] can take a step that brings it closer
    to releasing it. *)
Lemma holder_moves s j cj :
  reachable s → callers s !! j = Some cj → c_holds cj = true →
  w_engine (worker s) = true →
  ∃ s' c', step (T_caller j) s = Some s' ∧ worker s' = worker s ∧
           callers s' = <[j:=c']> (callers s) ∧ (cr c' < cr cj)%nat ∧
           executed s' = executed s.
Proof.
  intros Hs Hj Hh He.
  destruct (lifecycle_invariant _ Hs) as (_ & L2 & _). rewrite He in L2.
  pose proof (cpc_wf_invariant _ _ _ Hs Hj) as Hwf.
  unfold step, step_caller. rewrite Hj.
  destruct cj; simpl in *; try done.
  - eexists _, _. split_and!; [done..|simpl; lia|done].
  - eexists _, _. split_and!; [done..|simpl; lia|done].
  - subst r. destruct (mRenderEngine s) as [e|]; [|done]. simpl.
    eexists _, _. split_and!; [done..|simpl; lia|done].
  - eexists _, _. split_and!; [done..|simpl; lia|done].
Qed.

(** The same for the holder of [mInitializedMutex]. *)
Lemma init_holder_moves s j cj :
  callers s !! j = Some cj → c_holds_init cj = true →
  ∃ s' c', step (T_caller j) s = Some s' ∧ worker s' = worker s ∧
           callers s' = <[j:=c']> (callers s) ∧ (cr c' < cr cj)%nat ∧
           executed s' = executed s.
Proof.
  intros Hj Hh. unfold step, step_caller. rewrite Hj.
  destruct cj; simpl in *; try done.
  - destruct (mIsInitialized s); eexists _, _; (split_and!; [done..|simpl; lia|done]).
  - destruct (after_wait r) as [c|] eqn:Ha.
    + eexists _, c. split_and!; [done..| |done].
      apply after_wait_Some in Ha as [[-> _]|[_ ->]]; simpl; lia.
    + eexists _, _. split_and!; [done..|simpl; lia|done].
Qed.

(** While the dispatcher is alive and caller [i] is blocked on an unset
    promise, some thread other than [i] can take a step that either
    completes a task or brings the worker closer to completing one. *)
Lemma progress_step s i r p :
  reachable s → owner s = O_alive →
  callers s !! i = Some (C_get r p) → promises s !! p = Some None →
  ∃ l s', quiet l = true ∧ l ≠ T_caller i ∧ step l s = Some s' ∧
    ((∃ t e, executed s' = executed s ++ [(t, e)]) ∨
     (executed s' = executed s ∧ (distance s' < distance s)%nat)).
Proof.
  intros Hs Ho Hi Hp.
  destruct (waiting_pending _ _ _ _ Hs Hi Hp) as (k & _ & _ & Hk).
  destruct (lifecycle_invariant _ Hs) as (_ & L2 & L3 & _).
  rewrite Ho in L3. simpl in L3.
  destruct (thread_invariant _ Hs) as [T1 _]. rewrite Ho in T1. simpl in T1.
  pose proof (exiting_invariant _ Hs) as Hex.
  pose proof (queue_lock_invariant _ Hs) as QL.
  pose proof (init_lock_invariant _ Hs) as IL.
  (* a step of caller [j], which holds a mutex the worker needs *)
  assert (∀ j cj s' c',
    callers s !! j = Some cj → cj ≠ C_get r p →
    step (T_caller j) s = Some s' → worker s' = worker s →
    callers s' = <[j:=c']> (callers s) → (cr c' < cr cj)%nat →
    executed s' = executed s →
    ∃ l s', quiet l = true ∧ l ≠ T_caller i ∧ step l s = Some s' ∧
      ((∃ t e, executed s' = executed s ++ [(t, e)]) ∨
       (executed s' = executed s ∧ (distance s' < distance s)%nat))) as Hcaller.
  { intros j cj s' c' Hj Hne Hstep Hw Hcs Hcr Hexec.
    exists (T_caller j), s'. split_and!; [done| |done|].
    - intros [= ->]. by simplify_eq.
    - right. split; [done|]. by eapply distance_caller. }
  (* a step of the worker that brings it closer to a task *)
  assert (∀ s',
    step T_worker s = Some s' → executed s' = executed s →
    length (callers s') = length (callers s) →
    (wr (worker s') < wr (worker s))%nat →
    ∃ l s', quiet l = true ∧ l ≠ T_caller i ∧ step l s = Some s' ∧
      ((∃ t e, executed s' = executed s ++ [(t, e)]) ∨
       (executed s' = executed s ∧ (distance s' < distance s)%nat))) as Hworker.
  { intros s' Hstep Hexec Hlen Hwr.
    exists T_worker, s'. split_and!; [done..|].
    right. split; [done|]. by apply distance_worker. }
  (* the worker is blocked on [mThreadMutex] *)
  assert (∀ t, mThreadMutex s = Some t → w_holds (worker s) = false →
    w_engine (worker s) = true →
    ∃ l s', quiet l = true ∧ l ≠ T_caller i ∧ step l s = Some s' ∧
      ((∃ t e, executed s' = executed s ++ [(t, e)]) ∨
       (executed s' = executed s ∧ (distance s' < distance s)%nat))) as Hblocked.
  { intros t Hm Hh He. apply QL in Hm. destruct t as [| |j]; simpl in Hm.
    - congruence.
    - by rewrite Ho in Hm.
    - destruct (callers s !! j) as [cj|] eqn:Hj; [|done]. simpl in Hm.
      destruct (holder_moves _ _ _ Hs Hj Hm He) as (s' & c' & ? & ? & ? & ? & ?).
      eapply (Hcaller j cj s' c'); try done. intros ->. done. }
  destruct (worker s) eqn:Hw; simpl in *; try done.
  - (* W_factory *)
    eapply Hworker; [unfold step, step_worker; by rewrite Hw|done..|simpl; lia].
  - (* W_lock *)
    destruct (mThreadMutex s) as [t|] eqn:Hm; [by eapply Hblocked|].
    eapply Hworker; [unfold step, step_worker; by rewrite Hw, Hm|done..|simpl; lia].
  - (* W_lockInit *)
    destruct (mInitializedMutex s) as [t|] eqn:Hm.
    + apply IL in Hm. destruct t as [| |j]; simpl in Hm.
      * by rewrite Hw in Hm.
      * done.
      * destruct (callers s !! j) as [cj|] eqn:Hj; [|done]. simpl in Hm.
        destruct (init_holder_moves _ _ _ Hj Hm) as (s' & c' & ? & ? & ? & ? & ?).
        eapply (Hcaller j cj s' c'); try done; [by intros ->|congruence].
    + eapply Hworker; [unfold step, step_worker; by rewrite Hw, Hm|done..|simpl; lia].
  - (* W_setInit *)
    eapply Hworker; [unfold step, step_worker; by rewrite Hw|done..|simpl; lia].
  - (* W_unlockInit *)
    eapply Hworker; [unfold step, step_worker; by rewrite Hw|done..|simpl; lia].
  - (* W_notifyAll *)
    eapply Hworker; [unfold step, step_worker; by rewrite Hw|done| |simpl; lia].
    simpl. by rewrite length_fmap.
  - (* W_loop *)
    eapply Hworker; [unfold step, step_worker; by rewrite Hw, L3|done..|simpl; lia].
  - (* W_empty *)
    destruct (mFunctionCalls s) as [|next rest] eqn:Hq; [by apply elem_of_nil in Hk|].
    eapply Hworker; [unfold step, step_worker; by rewrite Hw, Hq|done..|simpl; lia].
  - (* W_call *)
    destruct (mRenderEngine s) as [e|] eqn:He; [|done].
    destruct (call_closure task e) as [e' out] eqn:Hcall.
    eexists T_worker, _. split_and!; [done..| |].
    + unfold step, step_worker. by rewrite Hw, He, Hcall.
    + left. by eexists _, _.
  - (* W_pred *)
    destruct (mFunctionCalls s) as [|next rest] eqn:Hq; [by apply elem_of_nil in Hk|].
    eapply Hworker;
      [unfold step, step_worker, work_or_stop; by rewrite Hw, Hq, L3|done..|simpl; lia].
  - (* W_sleep *)
    destruct (wakeup_invariant _ Hs Hw) as [Hn _].
    destruct Hn as (j & cj & Hj & Hcj).
    { intros Hq. rewrite Hq in Hk. by apply elem_of_nil in Hk. }
    assert (j ≠ i) as Hji by (intros ->; by simplify_eq).
    destruct cj; try done.
    + destruct (holder_moves _ _ _ Hs Hj) as (s' & c' & ? & ? & ? & ? & ?);
        [done|by rewrite Hw|].
      eapply (Hcaller j _ s' c'); try done. congruence.
    + exists (T_caller j).
      destruct (promise_of k0) as [q|] eqn:Hq; eexists.
      * split_and!; [done|congruence| |].
        { unfold step, step_caller, notify_one. by rewrite Hj, Hq, Hw. }
        right. split; [done|]. apply distance_worker; simpl.
        -- by rewrite length_insert.
        -- rewrite Hw. simpl. lia.
      * split_and!; [done|congruence| |].
        { unfold step, step_caller, notify_one. by rewrite Hj, Hq, Hw. }
        right. split; [done|]. apply distance_worker; simpl.
        -- by rewrite length_insert.
        -- rewrite Hw. simpl. lia.
  - (* W_wake *)
    destruct (mThreadMutex s) as [t|] eqn:Hm; [by eapply Hblocked|].
    eapply Hworker; [unfold step, step_worker; by rewrite Hw, Hm|done..|simpl; lia].
  - specialize (Hex eq_refl). congruence.
  - specialize (Hex eq_refl). congruence.
  - specialize (Hex eq_refl). congruence.
Qed.

Lemma quiet_keeps l s s' i r p :
  step l s = Some s' → quiet l = true → l ≠ T_caller i →
  callers s !! i = Some (C_get r p) →
  owner s' = owner s ∧ callers s' !! i = Some (C_get r p) ∧
  (executed s' = executed s → promises s' = promises s).
Proof.
  intros Hstep Hq Hne Hi. step_cases Hstep; simpl in *; try done.
  all: try (split_and!; [done| |done];
            rewrite list_lookup_insert_ne; [done|congruence]).
  - split_and!; [done| |done]. by rewrite list_lookup_fmap, Hi.
  - split_and!; [done..|]. intros Hexec.
    apply (f_equal length) in Hexec. rewrite length_app in Hexec. simpl in Hexec. lia.
Qed.

(** Schedules of worker and caller steps in which caller [i] does not move. *)
Definition without (i : nat) (sched : list label) : Prop :=
  Forall (λ l, quiet l = true ∧ l ≠ T_caller i) sched.

Lemma task_completes n s i r p :
  (distance s < n)%nat →
  reachable s → owner s = O_alive →
  callers s !! i = Some (C_get r p) → promises s !! p = Some None →
  ∃ sched s' t e,
    without i sched ∧ run sched s = Some s' ∧
    executed s' = executed s ++ [(t, e)] ∧
    owner s' = O_alive ∧ callers s' !! i = Some (C_get r p).
Proof.
  revert s. induction n as [|n IH]; intros s Hd Hs Ho Hi Hp; [lia|].
  destruct (progress_step _ _ _ _ Hs Ho Hi Hp)
    as (l & s1 & Hq & Hne & Hstep & [(t & e & Hexec)|[Hexec Hlt]]).
  - destruct (quiet_keeps _ _ _ _ _ _ Hstep Hq Hne Hi) as (Ho1 & Hi1 & _).
    exists [l], s1, t, e. split_and!; try done.
    + by repeat constructor.
    + simpl. by rewrite Hstep.
    + congruence.
  - destruct (quiet_keeps _ _ _ _ _ _ Hstep Hq Hne Hi) as (Ho1 & Hi1 & Hpr).
    destruct (IH s1) as (sched & s' & t & e & Hw & Hrun & He & Ho' & Hi').
    + lia.
    + by eapply reachable_step.
    + congruence.
    + done.
    + by rewrite Hpr.
    + exists (l :: sched), s', t, e. split_and!; try done.
      * by constructor.
      * simpl. by rewrite Hstep.
      * congruence.
Qed.

Lemma promise_gets_set m s i r p n k :
  reachable s → owner s = O_alive → callers s !! i = Some (C_get r p) →
  promise_of k = Some p → enqueued s !! n = Some k →
  (length (executed s) ≤ n)%nat → (n - length (executed s) < m)%nat →
  ∃ sched s' v,
    without i sched ∧ run sched s = Some s' ∧
    promises s' !! p = Some (Some v) ∧ callers s' !! i = Some (C_get r p).
Proof.
  revert s. induction m as [|m IH]; intros s Hs Ho Hi Hkp Hn Hle Hm; [lia|].
  destruct (fifo_invariant _ Hs) as [F1 _].
  assert (promises s !! p = Some None) as Hp.
  { destruct (store_invariant _ Hs) as (_ & S2 & _). eapply (S2 k); [|done].
    rewrite F1 in Hn. apply lookup_app_Some in Hn as [Hn|[_ Hn]].
    - apply lookup_lt_Some in Hn. rewrite length_fmap in Hn. lia.
    - by eapply list_elem_of_lookup_2. }
  destruct (task_completes _ s i r p (Nat.lt_succ_diag_r _) Hs Ho Hi Hp)
    as (sched & s1 & t & e & Hw & Hrun & Hexec & Ho1 & Hi1).
  assert (reachable s1) as Hs1 by (by eapply reachable_run).
  destruct (run_enqueued_grows _ _ _ Hrun) as [extra Hextra].
  assert (enqueued s1 !! n = Some k) as Hn1.
  { rewrite Hextra. by apply lookup_app_l_Some. }
  destruct (decide (n = length (executed s))) as [->|Hne].
  - (* the task just completed is the caller's *)
    destruct (fifo_invariant _ Hs1) as [F1' _].
    rewrite F1', Hexec, fmap_app in Hn1. simpl in Hn1.
    rewrite <-app_assoc in Hn1.
    rewrite lookup_app_r in Hn1 by (by rewrite length_fmap).
    rewrite length_fmap, Nat.sub_diag in Hn1. simpl in Hn1. simplify_eq.
    destruct (call_closure_fulfils k e p Hkp) as [v Hv].
    destruct (store_invariant _ Hs1) as (_ & _ & _ & S4).
    exists sched, s1, v. split_and!; try done.
    eapply S4; [|done]. rewrite Hexec. apply elem_of_app. right. by left.
  - destruct (IH s1) as (sched2 & s2 & v & Hw2 & Hrun2 & Hv & Hi2); try done.
    + rewrite Hexec, length_app. simpl. lia.
    + rewrite Hexec, length_app. simpl. lia.
    + exists (sched ++ sched2), s2, v. split_and!; try done.
      * by apply Forall_app.
      * by rewrite run_app, Hrun.
Qed.

(** X9.  While the dispatcher has not been destroyed, a caller blocked in a
    blocking method can always be brought to return: there is a schedule of
    worker and caller steps only (no destructor step, no spurious wake-up)
    after which the method has returned through its promise. *)
Theorem X9_blocking_call_completes s i r p :
  reachable s → owner s = O_alive → callers s !! i = Some (C_get r p) →
  ∃ sched s' v,
    Forall (λ l, quiet l = true) sched ∧ run sched s = Some s' ∧
    callers s' !! i = Some C_idle ∧
    mkRet i r (Some p) v ∈ returned s' ∧
    promises s' !! p = Some (Some v).
Proof.
  intros Hs Ho Hi.
  assert (∀ s0 v, callers s0 !! i = Some (C_get r p) →
            promises s0 !! p = Some (Some v) →
            ∃ s', run [T_caller i] s0 = Some s' ∧
                  callers s' !! i = Some C_idle ∧
                  mkRet i r (Some p) v ∈ returned s' ∧
                  promises s' !! p = Some (Some v)) as Hret.
  { intros s0 v Hi0 Hv. eexists. split.
    - simpl. unfold step_caller. by rewrite Hi0, Hv.
    - simpl. split_and!; [|apply elem_of_app; right; by left|done].
      apply list_lookup_insert_eq. by eapply lookup_lt_Some. }
  destruct (promises s !! p) as [[v|]|] eqn:Hp.
  - destruct (Hret s v Hi Hp) as (s' & Hrun & ? & ? & ?).
    exists [T_caller i], s', v. split_and!; try done. by repeat constructor.
  - destruct (waiting_pending _ _ _ _ Hs Hi Hp) as (k & _ & Hkp & Hk).
    destruct (fifo_invariant _ Hs) as [F1 _].
    apply list_elem_of_lookup in Hk as [j Hj].
    destruct (promise_gets_set (S j) s i r p (length (executed s) + j) k)
      as (sched & s1 & v & Hw & Hrun & Hv & Hi1); try done; try lia.
    { rewrite F1, lookup_app_r by (rewrite length_fmap; lia).
      rewrite length_fmap. by replace (length (executed s) + j - length (executed s))%nat
        with j by lia. }
    destruct (Hret s1 v Hi1 Hv) as (s' & Hrun' & ? & ? & ?).
    exists (sched ++ [T_caller i]), s', v. split_and!; try done.
    + apply Forall_app. split; [|by repeat constructor].
      unfold without in Hw. eapply list.Forall_impl; [exact Hw|]. by intros l [? _].
    + by rewrite run_app, Hrun.
  - destruct (chan_bound_invariant _ Hs) as [B1 _].
    apply lookup_ge_None in Hp. specialize (B1 _ _ p Hi eq_refl). lia.
Qed.

(** ** The destructor can complete *)

Lemma quiet_owner l s s' :
  step l s = Some s' → quiet l = true →
  owner s' = owner s ∧ mRunning s' = mRunning s.
Proof. intros Hstep Hq. by step_cases Hstep. Qed.

(** A caller that holds [mThreadMutex] while [mRunning] is true can move
    towards releasing it. *)
Lemma holder_moves_running s j cj :
  reachable s → mRunning s = true →
  callers s !! j = Some cj → c_holds cj = true →
  ∃ s' c', step (T_caller j) s = Some s' ∧ worker s' = worker s ∧
           callers s' = <[j:=c']> (callers s) ∧ (cr c' < cr cj)%nat ∧
           executed s' = executed s.
Proof.
  intros Hs Hr Hj Hh.
  destruct (decide (c_waited cj = true)) as [Hc|Hc].
  - apply holder_moves; try done.
    destruct (lifecycle_invariant _ Hs) as (L1 & _).
    destruct (barrier_invariant _ Hs) as (B1 & _).
    pose proof (exiting_invariant _ Hs) as Hex.
    rewrite (B1 _ _ Hj Hc) in L1.
    destruct (worker s) eqn:Hw; simpl in *; try done.
    all: specialize (Hex eq_refl); congruence.
  - unfold step, step_caller. rewrite Hj.
    destruct cj; simpl in *; try done.
    all: eexists _, _; split_and!; [done..|simpl; lia|done].
Qed.

Lemma caller_step_queue s j cj s' :
  callers s !! j = Some cj → c_holds_init cj = true →
  step (T_caller j) s = Some s' → mFunctionCalls s' = mFunctionCalls s.
Proof.
  intros Hj Hh Hstep. unfold step, step_caller in Hstep. rewrite Hj in Hstep.
  destruct cj; simpl in *; try done.
  - destruct (mIsInitialized s); by simplify_eq.
  - destruct (after_wait r); by simplify_eq.
Qed.

(** Steps the worker still takes before it gives up [mThreadMutex], with
    [mRunning] true and [n] tasks queued. *)
Definition wheld (w : wpc) (n : nat) : nat :=
  match w with
  | W_lockInit => 4 * n + 9
  | W_setInit => 4 * n + 8
  | W_unlockInit => 4 * n + 7
  | W_notifyAll => 4 * n + 6
  | W_call _ => 4 * n + 5
  | W_pred => if decide (n = 0)%nat then 1 else 4 * n + 4
  | W_loop => 4 * n + 3
  | W_empty => 4 * n + 2
  | _ => 0
  end.

Definition hold_rank (s : state) : nat :=
  wheld (worker s) (length (mFunctionCalls s)) * (3 * length (callers s) + 1)
  + sum_list_with cr (callers s).

Lemma rank_lt (a a' : nat) (cs cs' : list cpc) :
  length cs' = length cs → (a' < a)%nat →
  (a' * (3 * length cs' + 1) + sum_list_with cr cs'
   < a * (3 * length cs + 1) + sum_list_with cr cs)%nat.
Proof.
  intros Hl Ha. rewrite Hl.
  pose proof (sum_cr_bound cs') as Hb. rewrite Hl in Hb. nia.
Qed.

Lemma rank_caller (a : nat) (cs : list cpc) j c c' :
  cs !! j = Some c → (cr c' < cr c)%nat →
  (a * (3 * length (<[j:=c']> cs) + 1) + sum_list_with cr (<[j:=c']> cs)
   < a * (3 * length cs + 1) + sum_list_with cr cs)%nat.
Proof.
  intros Hj Hc. rewrite length_insert.
  pose proof (sum_cr_insert _ _ _ c' Hj). nia.
Qed.

(** A step of the worker, or of a caller that holds one of the two
    mutexes. *)
Definition holder_label (s : state) (l : label) : Prop :=
  quiet l = true ∧
  ∀ i c, l = T_caller i → callers s !! i = Some c →
         c_holds c = true ∨ c_holds_init c = true.

Lemma holder_label_worker s : holder_label s T_worker.
Proof. split; [done|]. by intros ?? [=]. Qed.

Lemma holder_label_caller s j cj :
  callers s !! j = Some cj → c_holds cj = true ∨ c_holds_init cj = true →
  holder_label s (T_caller j).
Proof. intros Hj Hh. split; [done|]. intros i c [= <-] Hc. by simplify_eq. Qed.

(** A caller that holds no mutex and does not sleep stays where it is when
    another thread takes a step. *)
Lemma bystander_stays l s s' i c :
  step l s = Some s' → holder_label s l →
  callers s !! i = Some c →
  c_holds c = false → c_holds_init c = false → c_asleep c = false →
  callers s' !! i = Some c.
Proof.
  intros Hstep [Hq Hl] Hi Hh Hhi Ha.
  destruct l as [| |j r|j| |j]; try done.
  - unfold step, step_worker in Hstep.
    destruct (worker s); simplify_eq; simpl; try done.
    all: repeat case_match; simplify_eq; simpl; try done.
    rewrite list_lookup_fmap, Hi. simpl. by destruct c.
  - destruct (decide (j = i)) as [->|Hne].
    { destruct (Hl _ _ eq_refl Hi); congruence. }
    unfold step, step_caller in Hstep.
    destruct (callers s !! j) as [cj|]; [|done].
    destruct cj; repeat case_match; simplify_eq; simpl.
    all: try (by rewrite list_lookup_insert_ne).
    all: unfold notify_one; case_match; simpl; by rewrite list_lookup_insert_ne.
Qed.

(** While [mRunning] is true and [mThreadMutex] is held by the worker or a
    caller, the holder can take a step towards releasing it. *)
Lemma release_step s :
  reachable s → mRunning s = true → o_holds (owner s) = false →
  is_Some (mThreadMutex s) →
  ∃ l s', holder_label s l ∧ step l s = Some s' ∧
          (hold_rank s' < hold_rank s)%nat.
Proof.
  intros Hs Hr Ho [t Hm].
  pose proof (queue_lock_invariant _ Hs) as QL.
  pose proof (init_lock_invariant _ Hs) as IL.
  destruct (lifecycle_invariant _ Hs) as (_ & L2 & _).
  pose proof (exiting_invariant _ Hs) as Hex.
  pose proof (proj1 (QL t) Hm) as Ht.
  destruct t as [| |j]; simpl in Ht.
  2: congruence.
  2: { destruct (callers s !! j) as [cj|] eqn:Hj; [|done]. simpl in Ht.
       destruct (holder_moves_running _ _ _ Hs Hr Hj Ht)
         as (s' & c' & Hstep & Hw & Hcs & Hcr & _).
       exists (T_caller j), s'.
       split_and!; [by eapply holder_label_caller; eauto|done|].
       assert (w_holds (worker s) = false) as Hnh.
       { destruct (w_holds (worker s)) eqn:E; [|done].
         pose proof (proj2 (QL Worker) E). congruence. }
       unfold hold_rank. rewrite Hw, Hcs.
       assert (∀ n, wheld (worker s) n = 0%nat) as Hz.
       { intros n. revert Hnh. by destruct (worker s). }
       rewrite !Hz. by eapply rank_caller. }
  (* the worker holds the mutex *)
  assert (∀ s',
    step T_worker s = Some s' → length (callers s') = length (callers s) →
    (wheld (worker s') (length (mFunctionCalls s'))
     < wheld (worker s) (length (mFunctionCalls s)))%nat →
    ∃ l s', holder_label s l ∧ step l s = Some s' ∧
            (hold_rank s' < hold_rank s)%nat) as Hworker.
  { intros s' Hstep Hlen Hlt. exists T_worker, s'.
    split_and!; [apply holder_label_worker|done|].
    unfold hold_rank. by apply rank_lt. }
  destruct (worker s) eqn:Hw; simpl in *; try done.
  - (* W_lockInit *)
    destruct (mInitializedMutex s) as [t|] eqn:Hi.
    + apply IL in Hi. destruct t as [| |j]; simpl in Hi.
      * by rewrite Hw in Hi.
      * done.
      * destruct (callers s !! j) as [cj|] eqn:Hj; [|done]. simpl in Hi.
        destruct (init_holder_moves _ _ _ Hj Hi) as (s' & c' & Hstep & Hw' & Hcs & Hcr & _).
        pose proof (caller_step_queue _ _ _ _ Hj Hi Hstep) as Hq.
        exists (T_caller j), s'.
        split_and!; [by eapply holder_label_caller; eauto|done|].
        unfold hold_rank. rewrite Hw', Hcs, Hq. by eapply rank_caller.
    + eapply Hworker; [unfold step, step_worker; by rewrite Hw, Hi|done|simpl; lia].
  - eapply Hworker; [unfold step, step_worker; by rewrite Hw|done|simpl; lia].
  - eapply Hworker; [unfold step, step_worker; by rewrite Hw|done|simpl; lia].
  - eapply Hworker; [unfold step, step_worker; by rewrite Hw| |simpl; lia].
    simpl. by rewrite length_fmap.
  - eapply Hworker; [unfold step, step_worker; by rewrite Hw, Hr|done|simpl; lia].
  - destruct (mFunctionCalls s) as [|next rest] eqn:Hq.
    + eapply Hworker; [unfold step, step_worker; by rewrite Hw, Hq|done|].
      simpl. rewrite Hq. simpl. lia.
    + eapply Hworker; [unfold step, step_worker; by rewrite Hw, Hq|done|].
      simpl. lia.
  - destruct (mRenderEngine s) as [e|] eqn:He; [|done].
    destruct (call_closure task e) as [e' out] eqn:Hcall.
    eapply Hworker; [unfold step, step_worker; by rewrite Hw, He, Hcall|done|].
    simpl. case_decide; lia.
  - destruct (mFunctionCalls s) as [|next rest] eqn:Hq.
    + exists T_worker. eexists. split_and!; [apply holder_label_worker| |].
      * unfold step, step_worker, work_or_stop. by rewrite Hw, Hr, Hq.
      * unfold hold_rank. simpl. rewrite Hw, Hq. simpl. lia.
    + eapply Hworker;
        [unfold step, step_worker, work_or_stop; by rewrite Hw, Hr, Hq|done|].
      simpl. rewrite Hq. simpl. lia.
  - specialize (Hex eq_refl). congruence.
  - specialize (Hex eq_refl). congruence.
Qed.

(** With [mRunning] true and the owner outside its critical sections, the
    worker and the callers can run until [mThreadMutex] is free; a caller
    that waits for the mutex at l.209 is still there. *)
Lemma mutex_released n s :
  (hold_rank s < n)%nat →
  reachable s → mRunning s = true → o_holds (owner s) = false →
  ∃ sched s', Forall (λ l, quiet l = true) sched ∧ run sched s = Some s' ∧
              mThreadMutex s' = None ∧ owner s' = owner s ∧
              ∀ i r, callers s !! i = Some (C_readLock r) →
                     callers s' !! i = Some (C_readLock r).
Proof.
  revert s. induction n as [|n IH]; intros s Hd Hs Hr Ho; [lia|].
  destruct (mThreadMutex s) as [t|] eqn:Hm; [|by exists [], s].
  destruct (release_step _ Hs Hr Ho) as (l & s1 & Hl & Hstep & Hlt);
    [by rewrite Hm|].
  destruct (quiet_owner _ _ _ Hstep (proj1 Hl)) as [Ho1 Hr1].
  destruct (IH s1) as (sched & s' & Hf & Hrun & Hm' & Ho' & Hstay);
    [lia|by eapply reachable_step|congruence|congruence|].
  exists (l :: sched), s'.
  split_and!; [constructor; [apply Hl|done]|by rewrite (run_cons _ _ _ _ Hstep)
              |done|congruence|].
  intros i r Hi. apply Hstay. by eapply bystander_stays.
Qed.

(** Steps [threadMain] still takes before it returns, once [mRunning] is
    false. *)
Definition wx (w : wpc) : nat :=
  match w with
  | W_done => 0
  | W_return => 1
  | W_reset => 2
  | W_loop => 3
  | W_pred => 4
  | W_wake => 5
  | W_notifyAll => 6
  | W_unlockInit => 7
  | W_setInit => 8
  | W_lockInit => 9
  | W_lock => 10
  | W_factory => 11
  | _ => 12
  end.

Definition exit_rank (s : state) : nat :=
  wx (worker s) * (3 * length (callers s) + 1) + sum_list_with cr (callers s).

(** While the destructor waits in [join], the thread function can take a
    step towards its return, or a caller can release the mutex it needs. *)
Lemma exit_step s :
  reachable s → owner s = O_join → worker s ≠ W_done →
  ∃ l s', quiet l = true ∧ step l s = Some s' ∧
          (exit_rank s' < exit_rank s)%nat.
Proof.
  intros Hs Ho Hnd.
  pose proof (queue_lock_invariant _ Hs) as QL.
  pose proof (init_lock_invariant _ Hs) as IL.
  destruct (lifecycle_invariant _ Hs) as (_ & _ & L3 & L4 & _).
  rewrite Ho in L3. simpl in L3.
  destruct (thread_invariant _ Hs) as [T1 _]. rewrite Ho in T1. simpl in T1.
  pose proof (wakeup_invariant _ Hs) as Hwk. unfold wakeup_inv in Hwk.
  assert (∀ s',
    step T_worker s = Some s' → length (callers s') = length (callers s) →
    (wx (worker s') < wx (worker s))%nat →
    ∃ l s', quiet l = true ∧ step l s = Some s' ∧
            (exit_rank s' < exit_rank s)%nat) as Hworker.
  { intros s' Hstep Hlen Hlt. exists T_worker, s'. split_and!; [done..|].
    unfold exit_rank. by apply rank_lt. }
  assert (w_holds (worker s) = false → w_engine (worker s) = true →
    mThreadMutex s = None ∨
    ∃ l s', quiet l = true ∧ step l s = Some s' ∧
            (exit_rank s' < exit_rank s)%nat) as Hneed.
  { intros Hnh He. destruct (mThreadMutex s) as [t|] eqn:Hm; [right|by left].
    apply QL in Hm. destruct t as [| |j]; simpl in Hm.
    - congruence.
    - by rewrite Ho in Hm.
    - destruct (callers s !! j) as [cj|] eqn:Hj; [|done]. simpl in Hm.
      destruct (holder_moves _ _ _ Hs Hj Hm He)
        as (s' & c' & Hstep & Hw' & Hcs & Hcr & _).
      exists (T_caller j), s'. split_and!; [done..|].
      unfold exit_rank. rewrite Hw', Hcs. by eapply rank_caller. }
  destruct (worker s) eqn:Hw; simpl in *; try done.
  - eapply Hworker; [unfold step, step_worker; by rewrite Hw|done|simpl; lia].
  - destruct Hneed as [Hm|?]; [done..| |done].
    eapply Hworker; [unfold step, step_worker; by rewrite Hw, Hm|done|simpl; lia].
  - destruct (mInitializedMutex s) as [t|] eqn:Hi.
    + apply IL in Hi. destruct t as [| |j]; simpl in Hi.
      * by rewrite Hw in Hi.
      * done.
      * destruct (callers s !! j) as [cj|] eqn:Hj; [|done]. simpl in Hi.
        destruct (init_holder_moves _ _ _ Hj Hi)
          as (s' & c' & Hstep & Hw' & Hcs & Hcr & _).
        exists (T_caller j), s'. split_and!; [done..|].
        unfold exit_rank. rewrite Hw', Hcs, Hw. by eapply rank_caller.
    + eapply Hworker; [unfold step, step_worker; by rewrite Hw, Hi|done|simpl; lia].
  - eapply Hworker; [unfold step, step_worker; by rewrite Hw|done|simpl; lia].
  - eapply Hworker; [unfold step, step_worker; by rewrite Hw|done|simpl; lia].
  - eapply Hworker; [unfold step, step_worker; by rewrite Hw| |simpl; lia].
    simpl. by rewrite length_fmap.
  - eapply Hworker; [unfold step, step_worker; by rewrite Hw, L3|done|simpl; lia].
  - specialize (L4 eq_refl). congruence.
  - specialize (L4 eq_refl). congruence.
  - eapply Hworker;
      [unfold step, step_worker, work_or_stop; by rewrite Hw, L3|done|simpl; lia].
  - destruct (Hwk eq_refl) as [_ Hn]. specialize (Hn L3). congruence.
  - destruct Hneed as [Hm|?]; [done..| |done].
    eapply Hworker; [unfold step, step_worker; by rewrite Hw, Hm|done|simpl; lia].
  - eapply Hworker; [unfold step, step_worker; by rewrite Hw|done|simpl; lia].
  - eapply Hworker; [unfold step, step_worker; by rewrite Hw|done|simpl; lia].
Qed.

Lemma worker_exits n s :
  (exit_rank s < n)%nat → reachable s → owner s = O_join →
  ∃ sched s', Forall (λ l, quiet l = true) sched ∧ run sched s = Some s' ∧
              worker s' = W_done ∧ owner s' = O_join.
Proof.
  revert s. induction n as [|n IH]; intros s Hd Hs Ho; [lia|].
  assert (worker s = W_done ∨ worker s ≠ W_done) as [Hw|Hw]
    by (destruct (worker s); ((right; discriminate) || (left; reflexivity))).
  { by exists [], s. }
  destruct (exit_step _ Hs Ho Hw) as (l & s1 & Hq & Hstep & Hlt).
  destruct (quiet_owner _ _ _ Hstep Hq) as [Ho1 _].
  destruct (IH s1) as (sched & s' & Hf & Hrun & Hw' & Ho');
    [lia|by eapply reachable_step|congruence|].
  exists (l :: sched), s'.
  split_and!; [by constructor|by rewrite (run_cons _ _ _ _ Hstep)|done..].
Qed.

(** The constructor has returned. *)
Definition o_constructed (o : opc) : bool :=
  match o with
  | O_ctorLock | O_spawn | O_ctorUnlock => false
  | _ => true
  end.

(** No public method is entered and no thread wakes up spuriously. *)
Definition no_new_call (l : label) : bool :=
  match l with
  | T_owner | T_worker | T_caller _ => true
  | _ => false
  end.

Definition can_finish (s : state) : Prop :=
  ∃ sched s', Forall (λ l, no_new_call l = true) sched ∧
              run sched s = Some s' ∧ owner s' = O_done.

Lemma can_finish_step l s s1 :
  no_new_call l = true → step l s = Some s1 → can_finish s1 → can_finish s.
Proof.
  intros Hl Hstep (sched & s' & Hf & Hrun & Ho).
  exists (l :: sched), s'.
  split_and!; [by constructor|by rewrite (run_cons _ _ _ _ Hstep)|done].
Qed.

Lemma can_finish_run sched s s1 :
  Forall (λ l, quiet l = true) sched → run sched s = Some s1 →
  can_finish s1 → can_finish s.
Proof.
  intros Hq Hrun1 (sched' & s' & Hf & Hrun & Ho).
  exists (sched ++ sched'), s'. split_and!; [|by rewrite run_app, Hrun1|done].
  apply Forall_app. split; [|done].
  eapply list.Forall_impl; [exact Hq|]. by intros [].
Qed.

Lemma can_finish_join s : reachable s → owner s = O_join → can_finish s.
Proof.
  intros Hs Ho.
  destruct (worker_exits (S (exit_rank s)) s) as (sched & s1 & Hq & Hrun & Hw & Ho1);
    [lia|done..|].
  eapply can_finish_run; [done..|].
  exists [T_owner]. eexists. split_and!; [by repeat constructor| |].
  - simpl. unfold step_owner. by rewrite Ho1, Hw.
  - done.
Qed.

Lemma can_finish_owner_step s s1 :
  reachable s → step T_owner s = Some s1 →
  (reachable s1 → can_finish s1) → can_finish s.
Proof.
  intros Hs Hstep Hfin. eapply (can_finish_step T_owner); [done..|].
  apply Hfin. by eapply reachable_step.
Qed.

Lemma can_finish_unlock s : reachable s → owner s = O_dtorUnlock → can_finish s.
Proof.
  intros Hs Ho. eapply can_finish_owner_step; [done| |].
  - unfold step, step_owner. by rewrite Ho.
  - intros Hs1. by apply can_finish_join.
Qed.

Lemma can_finish_notify s : reachable s → owner s = O_notify → can_finish s.
Proof.
  intros Hs Ho. eapply can_finish_owner_step; [done| |].
  - unfold step, step_owner. by rewrite Ho.
  - intros Hs1. by apply can_finish_unlock.
Qed.

Lemma can_finish_clear s : reachable s → owner s = O_clear → can_finish s.
Proof.
  intros Hs Ho. eapply can_finish_owner_step; [done| |].
  - unfold step, step_owner. by rewrite Ho.
  - intros Hs1. by apply can_finish_notify.
Qed.

Lemma can_finish_dtorLock s : reachable s → owner s = O_dtorLock → can_finish s.
Proof.
  intros Hs Ho.
  destruct (lifecycle_invariant _ Hs) as (_ & _ & L3 & _).
  rewrite Ho in L3. simpl in L3.
  destruct (mutex_released (S (hold_rank s)) s)
    as (sched & s1 & Hq & Hrun & Hm & Ho1 & _); [lia|done|done|by rewrite Ho|].
  eapply can_finish_run; [done..|].
  eapply can_finish_owner_step; [by eapply reachable_run| |].
  - unfold step, step_owner. by rewrite Ho1, Ho, Hm.
  - intros Hs1. by apply can_finish_clear.
Qed.

(** X10 (l.50-60, l.83-96): once the constructor has returned, the destructor
    can always run to completion.  From every reachable state in which the
    owner is past the constructor there is a continuation, made only of
    steps of the owner, the worker and the callers already inside a public
    method (no new call, no spurious wake-up), after which [join] has
    returned, [threadMain] has returned, the wrapped engine has been
    released, [mRunning] is false and the destructor has taken its three
    steps in order, the first while holding [mThreadMutex]. *)
Theorem X10_destructor_completes s :
  reachable s → o_constructed (owner s) = true →
  ∃ sched s',
    Forall (λ l, no_new_call l = true) sched ∧ run sched s = Some s' ∧
    owner s' = O_done ∧ worker s' = W_done ∧ mRenderEngine s' = None ∧
    mRunning s' = false ∧
    dtor_log s' = [D_clear (Some Owner); D_notify; D_join].
Proof.
  intros Hs Hc.
  assert (can_finish s) as (sched & s' & Hf & Hrun & Ho).
  { destruct (owner s) eqn:Ho; try done.
    - eapply can_finish_owner_step; [done| |].
      + unfold step, step_owner. by rewrite Ho.
      + intros Hs1. by apply can_finish_dtorLock.
    - by apply can_finish_dtorLock.
    - by apply can_finish_clear.
    - by apply can_finish_notify.
    - by apply can_finish_unlock.
    - by apply can_finish_join.
    - by exists [], s. }
  exists sched, s'. split_and!; try done.
  all: assert (reachable s') as Hs' by (by eapply reachable_run).
  all: destruct (lifecycle_invariant _ Hs') as (_ & L2 & L3 & _ & L5).
  all: destruct (thread_invariant _ Hs') as [_ T2]; specialize (T2 Ho).
  - done.
  - rewrite T2 in L2. by destruct (mRenderEngine s').
  - by rewrite Ho in L3.
  - by rewrite Ho in L5.
Qed.


(** ** The guarded read of [isProtected] *)

(** X11 (l.205-211, l.83-92).  When a caller is at the read of [isProtected]
    (l.210, inside the lock of l.209), the worker is parked in the wait on
    [mCondition] (asleep, or woken and not yet back in possession of the
    mutex) or has returned; every task that was ever started has completed,
    so the push log is the completed tasks followed by the queue; and the
    value the caller reads is [isProtected] of the factory's instance with
    exactly the completed tasks applied in push order. *)
Theorem X11_isProtected_at_rest s i r :
  reachable s → callers s !! i = Some (C_readLocked r) →
  (worker s = W_sleep ∨ worker s = W_wake ∨ worker s = W_done) ∧
  enqueued s = (executed s).*1 ++ mFunctionCalls s ∧
  ∀ s', step (T_caller i) s = Some s' →
    callers s' !! i
    = Some (C_readUnlock r
              (V_bool (re_isProtected (replay (executed s).*1 factory)))).
Proof.
  intros Hs Hi.
  pose proof (queue_lock_invariant _ Hs) as QL.
  destruct (lifecycle_invariant _ Hs) as (L1 & _).
  destruct (barrier_invariant _ Hs) as (B1 & _).
  destruct (fifo_invariant _ Hs) as [F1 _].
  destruct (replay_invariant _ Hs) as [R1 _].
  pose proof (cpc_wf_invariant _ _ _ Hs Hi) as Hwf. simpl in Hwf. subst r.
  rewrite (B1 _ _ Hi eq_refl) in L1.
  assert (mThreadMutex s = Some (Caller i)) as Hm.
  { apply QL. simpl. by rewrite Hi. }
  assert (w_holds (worker s) = false) as Hnh.
  { destruct (w_holds (worker s)) eqn:E; [|done].
    pose proof (proj2 (QL Worker) E). congruence. }
  assert (worker s = W_sleep ∨ worker s = W_wake ∨ worker s = W_done) as Hw.
  { destruct (worker s); simpl in *; try done; eauto. }
  split_and!; [done| |].
  - rewrite F1. by destruct Hw as [-> | [-> | ->]].
  - intros s' Hstep. unfold step, step_caller in Hstep. rewrite Hi, R1 in Hstep.
    destruct (w_engine (worker s)); [|done]. simpl in Hstep. simplify_eq.
    apply lookup_goto_eq. by rewrite Hi.
Qed.


(** ** An accessor can return *)

(** Caller [i] is inside method [r], or is between calls and has returned
    from [r]. *)
Definition in_or_returned (i : nat) (r : request) (s : state) : Prop :=
  (∃ c, callers s !! i = Some c ∧ request_of c = Some r) ∨
  (callers s !! i = Some C_idle ∧ ∃ ch v, mkRet i r ch v ∈ returned s).

Lemma in_or_returned_step l s s' i r :
  step l s = Some s' → quiet l = true →
  in_or_returned i r s → in_or_returned i r s'.
Proof.
  intros Hstep Hq Hin. unfold in_or_returned in *.
  destruct l as [| |j q|j| |j]; try done.
  - assert (returned s' = returned s ∧
            (callers s' = callers s ∨ callers s' = wake <$> callers s))
      as [-> [-> | ->]].
    { unfold step, step_worker in Hstep.
      destruct (worker s); repeat case_match; simplify_eq; simpl; eauto. }
    + done.
    + rewrite list_lookup_fmap.
      destruct Hin as [(c & -> & Hr)|(-> & Hx)]; [left|by right].
      exists (wake c). by destruct c.
  - assert (∃ cj pc s1, callers s !! j = Some cj ∧ callers s' = <[j:=pc]> (callers s1) ∧
              callers s1 = callers s ∧
              ((returned s' = returned s ∧ request_of pc = request_of cj) ∨
               (∃ rj ch v, request_of cj = Some rj ∧ pc = C_idle ∧
                  returned s' = returned s ++ [mkRet j rj ch v])))
      as (cj & pc & s1 & Hj & -> & -> & Hret).
    { unfold step, step_caller in Hstep.
      destruct (callers s !! j) as [cj|] eqn:Hj; [|done]. exists cj.
      destruct cj; repeat case_match; simplify_eq.
      all: unfold finish, goto, notify_one; repeat case_match; simpl.
      all: eexists _, s; split_and!; [done..|]; eauto 10.
      left. split; [done|].
      by match goal with
         | H : after_wait _ = Some _ |- _ =>
             apply after_wait_Some in H as [[-> ?]|[-> ->]]
         end. }
    destruct (decide (j = i)) as [->|Hne].
    + rewrite list_lookup_insert_eq by (by eapply lookup_lt_Some).
      destruct Hin as [(c & Hi & Hr)|(Hi & Hx)].
      * rewrite Hj in Hi. simplify_eq. destruct Hret as [[_ Hpc]|(rj & ch & v & ? & -> & ->)].
        -- left. exists pc. split; [done|congruence].
        -- right. split; [done|]. exists ch, v. apply elem_of_app. right.
           simplify_eq. by left.
      * unfold step, step_caller in Hstep. by rewrite Hi in Hstep.
    + rewrite list_lookup_insert_ne by done.
      destruct Hin as [Hin|(Hi & ch & v & Hx)]; [by left|right].
      split; [done|]. exists ch, v.
      destruct Hret as [[-> _]|(? & ? & ? & _ & _ & ->)]; [done|].
      apply elem_of_app. by left.
Qed.

Lemma in_or_returned_run sched s s' i r :
  Forall (λ l, quiet l = true) sched → run sched s = Some s' →
  in_or_returned i r s → in_or_returned i r s'.
Proof.
  intros Hq. revert s. induction Hq as [|l sched Hl _ IH]; intros s Hrun Hin.
  - by simplify_eq/=.
  - simpl in Hrun. destruct (step l s) as [s1|] eqn:Hstep; [|done].
    eapply IH; [done|]. by eapply in_or_returned_step.
Qed.

Lemma quiet_owner_run sched s s' :
  Forall (λ l, quiet l = true) sched → run sched s = Some s' →
  owner s' = owner s.
Proof.
  intros Hq. revert s. induction Hq as [|l sched Hl _ IH]; intros s Hrun.
  - by simplify_eq/=.
  - simpl in Hrun. destruct (step l s) as [s1|] eqn:Hstep; [|done].
    rewrite (IH _ Hrun). by eapply quiet_owner.
Qed.

(** While the object is alive and [threadMain] has not reached the loop,
    the worker can take a step, or a caller can release a mutex the worker
    needs. *)
Lemma init_step s :
  reachable s → owner s = O_alive → w_notified (worker s) = false →
  ∃ l s', quiet l = true ∧ step l s = Some s' ∧
          (distance s' < distance s)%nat.
Proof.
  intros Hs Ho Hn.
  pose proof (queue_lock_invariant _ Hs) as QL.
  pose proof (init_lock_invariant _ Hs) as IL.
  destruct (thread_invariant _ Hs) as [T1 _]. rewrite Ho in T1. simpl in T1.
  assert (∀ s',
    step T_worker s = Some s' → length (callers s') = length (callers s) →
    (wr (worker s') < wr (worker s))%nat →
    ∃ l s', quiet l = true ∧ step l s = Some s' ∧
            (distance s' < distance s)%nat) as Hworker.
  { intros s' Hstep Hlen Hlt. exists T_worker, s'. split_and!; [done..|].
    by apply distance_worker. }
  assert (∀ j cj s' c',
    callers s !! j = Some cj → step (T_caller j) s = Some s' →
    worker s' = worker s → callers s' = <[j:=c']> (callers s) →
    (cr c' < cr cj)%nat →
    ∃ l s', quiet l = true ∧ step l s = Some s' ∧
            (distance s' < distance s)%nat) as Hcaller.
  { intros j cj s' c' Hj Hstep Hw' Hcs Hcr. exists (T_caller j), s'.
    split_and!; [done..|]. by eapply distance_caller. }
  destruct (worker s) eqn:Hw; simpl in *; try done.
  - eapply Hworker; [unfold step, step_worker; by rewrite Hw|done|simpl; lia].
  - destruct (mThreadMutex s) as [t|] eqn:Hm.
    + apply QL in Hm. destruct t as [| |j]; simpl in Hm.
      * by rewrite Hw in Hm.
      * by rewrite Ho in Hm.
      * destruct (callers s !! j) as [cj|] eqn:Hj; [|done]. simpl in Hm.
        destruct (holder_moves _ _ _ Hs Hj Hm)
          as (s' & c' & Hstep & Hw' & Hcs & Hcr & _); [by rewrite Hw|].
        eapply Hcaller; eauto. by rewrite Hw', Hw.
    + eapply Hworker; [unfold step, step_worker; by rewrite Hw, Hm|done|simpl; lia].
  - destruct (mInitializedMutex s) as [t|] eqn:Hi.
    + apply IL in Hi. destruct t as [| |j]; simpl in Hi.
      * by rewrite Hw in Hi.
      * done.
      * destruct (callers s !! j) as [cj|] eqn:Hj; [|done]. simpl in Hi.
        destruct (init_holder_moves _ _ _ Hj Hi)
          as (s' & c' & Hstep & Hw' & Hcs & Hcr & _).
        eapply Hcaller; eauto. by rewrite Hw', Hw.
    + eapply Hworker; [unfold step, step_worker; by rewrite Hw, Hi|done|simpl; lia].
  - eapply Hworker; [unfold step, step_worker; by rewrite Hw|done|simpl; lia].
  - eapply Hworker; [unfold step, step_worker; by rewrite Hw|done|simpl; lia].
  - eapply Hworker; [unfold step, step_worker; by rewrite Hw| |simpl; lia].
    simpl. by rewrite length_fmap.
Qed.

Lemma init_reached n s :
  (distance s < n)%nat → reachable s → owner s = O_alive →
  ∃ sched s', Forall (λ l, quiet l = true) sched ∧ run sched s = Some s' ∧
              w_notified (worker s') = true.
Proof.
  revert s. induction n as [|n IH]; intros s Hd Hs Ho; [lia|].
  destruct (w_notified (worker s)) eqn:Hn; [by exists [], s|].
  destruct (init_step _ Hs Ho Hn) as (l & s1 & Hq & Hstep & Hlt).
  destruct (quiet_owner _ _ _ Hstep Hq) as [Ho1 _].
  destruct (IH s1) as (sched & s' & Hf & Hrun & Hn');
    [lia|by eapply reachable_step|congruence|].
  exists (l :: sched), s'.
  split_and!; [by constructor|by rewrite (run_cons _ _ _ _ Hstep)|done].
Qed.

(** There is a schedule of worker and caller steps after which caller [i]
    has returned from [r]. *)
Definition can_return (i : nat) (r : request) (s : state) : Prop :=
  ∃ sched s', Forall (λ l, quiet l = true) sched ∧ run sched s = Some s' ∧
              callers s' !! i = Some C_idle ∧
              ∃ v, mkRet i r None v ∈ returned s'.

Lemma can_return_run sched s s1 i r :
  Forall (λ l, quiet l = true) sched → run sched s = Some s1 →
  can_return i r s1 → can_return i r s.
Proof.
  intros Hq Hrun1 (sched' & s' & Hf & Hrun & Hi & Hv).
  exists (sched ++ sched'), s'.
  split_and!; [by apply Forall_app|by rewrite run_app, Hrun1|done..].
Qed.

Lemma can_return_step s s1 i r :
  step (T_caller i) s = Some s1 → can_return i r s1 → can_return i r s.
Proof.
  intros Hstep. apply (can_return_run [T_caller i]); [by repeat constructor|].
  simpl in *. by rewrite Hstep.
Qed.

Lemma returned_direct s i r ch v :
  reachable s → direct r = true → mkRet i r ch v ∈ returned s → ch = None.
Proof.
  intros Hs Hd Hx. destruct ch as [p|]; [|done].
  destruct (returned_invariant _ Hs _ p Hx eq_refl) as (k & _ & _ & Hk & _).
  simpl in Hk. apply pushed_closure_Some in Hk. congruence.
Qed.

Lemma engine_alive s :
  reachable s → owner s = O_alive → mIsInitialized s = true →
  ∃ e, mRenderEngine s = Some e.
Proof.
  intros Hs Ho Hflag.
  destruct (lifecycle_invariant _ Hs) as (L1 & L2 & L3 & _).
  pose proof (exiting_invariant _ Hs) as Hex.
  rewrite Ho in L3. simpl in L3. rewrite Hflag in L1.
  destruct (mRenderEngine s) as [e|]; [by exists e|]. simpl in L2.
  destruct (worker s); simpl in *; try done.
  all: specialize (Hex eq_refl); congruence.
Qed.

Lemma readUnlock_returns s i r v :
  callers s !! i = Some (C_readUnlock r v) → can_return i r s.
Proof.
  intros Hi. exists [T_caller i]. eexists. split_and!; [by repeat constructor| | |].
  - simpl. unfold step_caller. by rewrite Hi.
  - unfold finish. apply lookup_goto_eq. simpl. by rewrite Hi.
  - exists v. simpl. apply elem_of_app. right. by left.
Qed.

Lemma readLocked_returns s i r :
  reachable s → owner s = O_alive →
  callers s !! i = Some (C_readLocked r) → can_return i r s.
Proof.
  intros Hs Ho Hi.
  destruct (barrier_invariant _ Hs) as (B1 & _).
  destruct (engine_alive _ Hs Ho (B1 _ _ Hi eq_refl)) as [e He].
  pose proof (cpc_wf_invariant _ _ _ Hs Hi) as Hwf. simpl in Hwf. subst r.
  eapply (can_return_step _ (goto i (C_readUnlock isProtected (V_bool (re_isProtected e))) s)).
  - simpl. unfold step_caller. by rewrite Hi, He.
  - eapply readUnlock_returns. apply lookup_goto_eq. by rewrite Hi.
Qed.

Lemma readLock_returns s i r :
  reachable s → owner s = O_alive →
  callers s !! i = Some (C_readLock r) → can_return i r s.
Proof.
  intros Hs Ho Hi.
  destruct (lifecycle_invariant _ Hs) as (_ & _ & L3 & _).
  rewrite Ho in L3. simpl in L3.
  destruct (mutex_released (S (hold_rank s)) s)
    as (sched & s1 & Hq & Hrun & Hm & Ho1 & Hstay); [lia|done|done|by rewrite Ho|].
  eapply can_return_run; [done..|].
  specialize (Hstay _ _ Hi).
  assert (step (T_caller i) s1
          = Some (goto i (C_readLocked r) (set_mThreadMutex (Some (Caller i)) s1)))
    as Hstep.
  { simpl. unfold step_caller. by rewrite Hstay, Hm. }
  eapply can_return_step; [done|].
  apply readLocked_returns.
  - eapply reachable_step; [|done]. by eapply reachable_run.
  - simpl. congruence.
  - apply lookup_goto_eq. simpl. by rewrite Hstay.
Qed.

Lemma read_returns s i r :
  reachable s → owner s = O_alive →
  callers s !! i = Some (C_read r) → can_return i r s.
Proof.
  intros Hs Ho Hi.
  destruct (barrier_invariant _ Hs) as (B1 & _).
  destruct (engine_alive _ Hs Ho (B1 _ _ Hi eq_refl)) as [e He].
  destruct (cpc_wf_invariant _ _ _ Hs Hi) as [Hd Ha].
  assert (∃ v, direct_read r e = Some v) as [v Hv].
  { destruct r; simpl in *; try done; eauto. }
  exists [T_caller i]. eexists. split_and!; [by repeat constructor| | |].
  - simpl. unfold step_caller. by rewrite Hi, He, Hv.
  - unfold finish. apply lookup_goto_eq. simpl. by rewrite Hi.
  - exists v. simpl. apply elem_of_app. right. by left.
Qed.

(** A caller inside an accessor that has left the wait can return. *)
Lemma past_wait_returns s i r :
  reachable s → owner s = O_alive →
  in_or_returned i r s → direct r = true →
  (∀ c, callers s !! i = Some c → c_in_wait c = false) →
  can_return i r s.
Proof.
  intros Hs Ho [(c' & Hi & Hr)|(Hi & ch & v & Hx)] Hd Hw.
  - pose proof (cpc_wf_invariant _ _ _ Hs Hi) as Hwf.
    specialize (Hw _ Hi).
    destruct c'; simpl in *; simplify_eq; try done.
    1-4: destruct Hwf as [p Hp]; apply pushed_closure_Some in Hp; congruence.
    + destruct Hwf as (k & Hp & _); apply pushed_closure_Some in Hp; congruence.
    + by apply read_returns.
    + by apply readLock_returns.
    + by apply readLocked_returns.
    + by eapply readUnlock_returns.
  - exists [], s. split_and!; [done..|]. exists v.
    by rewrite <-(returned_direct _ _ _ _ _ Hs Hd Hx).
Qed.

(** X12 (l.98-101, l.195-216, l.316-319, l.72-81).  While the dispatcher is
    alive, a caller inside [waitUntilInitialized] or one of the accessors
    can always be brought to return: there is a schedule of worker and
    caller steps only (no destructor step, no new call, no spurious
    wake-up) after which the method has returned to the caller.  For
    [isProtected] the schedule lets the holder of [mThreadMutex] run until
    it releases it, which for the worker means until the queue is empty. *)
Theorem X12_accessor_completes s i c r :
  reachable s → owner s = O_alive →
  callers s !! i = Some c → request_of c = Some r → direct r = true →
  ∃ sched s',
    Forall (λ l, quiet l = true) sched ∧ run sched s = Some s' ∧
    callers s' !! i = Some C_idle ∧
    ∃ v, mkRet i r None v ∈ returned s'.
Proof.
  intros Hs Ho Hi Hr Hd.
  assert (in_or_returned i r s) as Hin by (left; eauto).
  destruct (init_reached (S (distance s)) s) as (sched1 & s1 & Hq1 & Hrun1 & Hn);
    [lia|done..|].
  apply (can_return_run sched1 _ s1); [done..|].
  assert (reachable s1) as Hs1 by (by eapply reachable_run).
  assert (owner s1 = O_alive) as Ho1.
  { by rewrite (quiet_owner_run _ _ _ Hq1 Hrun1). }
  pose proof (in_or_returned_run _ _ _ _ _ Hq1 Hrun1 Hin) as Hin1.
  destruct (callers s1 !! i) as [c1|] eqn:Hi1.
  2: { destruct Hin1 as [(? & ? & _)|[? _]]; congruence. }
  destruct (c_in_wait c1) eqn:Hw1.
  - destruct (waiters_released _ _ _ Hs1 Hn Hi1 Hw1)
      as (sched2 & s2 & Hq2 & Hrun2 & c2 & Hi2 & Hw2).
    assert (Forall (λ l, quiet l = true) sched2) as Hq2'.
    { eapply list.Forall_impl; [exact Hq2|]. by intros []. }
    apply (can_return_run sched2 _ s2); [done..|].
    eapply past_wait_returns; [by eapply reachable_run| |by eapply in_or_returned_run|done|].
    + by rewrite (quiet_owner_run _ _ _ Hq2' Hrun2).
    + intros ? ?. by simplify_eq.
  - eapply past_wait_returns; [done..|]. intros ? ?. by simplify_eq.
Qed.


(** ** The constructor *)

(** While the constructor runs, the new thread is not past the lock of
    l.74 and no caller is inside a method. *)
Definition ctor_inv (s : state) : Prop :=
  o_constructed (owner s) = false →
  (worker s = W_unborn ∨ worker s = W_factory ∨ worker s = W_lock) ∧
  (∀ i c, callers s !! i = Some c → c = C_idle) ∧
  (owner s = O_ctorLock → mThreadMutex s = None).

Lemma ctor_invariant s : reachable s → ctor_inv s.
Proof.
  induction 1 as [n|s l s' Hs IH Hstep] using reachable_invariant.
  { intros _. split_and!; [by left| |done]. by intros ?? ->%lookup_replicate_idle. }
  pose proof (queue_lock_invariant _ Hs Owner) as Lo. simpl in Lo.
  destruct (thread_invariant _ Hs) as [T1 _].
  unfold ctor_inv in *.
  step_cases Hstep; simpl in *; pc_rewrite; simpl in *; try done.
  all: intros Hc'; specialize (IH Hc'); destruct IH as (IHw & IHc & IHm).
  all: try (destruct IHw as [?|[?|?]]; congruence).
  all: try (by match goal with
               | H : callers _ !! _ = Some _ |- _ => apply IHc in H
               end).
  - split_and!; [by right; right|done..].
  - destruct (owner s) eqn:Ho; simpl in *; try done.
    all: pose proof (proj2 Lo eq_refl); congruence.
  - split_and!; [done..|]. intros ?. by simplify_eq.
  - split_and!; [by right; left|done..].
Qed.

(** X13 (l.42-48, l.63-74).  While the constructor has not returned: the new
    thread is not yet spawned, is inside [factory()], or is at the lock of
    l.74; the flag is unset and no task has run; the constructor's next step
    is always enabled, so it returns without waiting for the engine to be
    created; and a thread that has reached l.74 cannot take it, because the
    constructor holds [mThreadMutex] from l.46 until it returns. *)
Theorem X13_constructor_fence s :
  reachable s → o_constructed (owner s) = false →
  (worker s = W_unborn ∨ worker s = W_factory ∨ worker s = W_lock) ∧
  mIsInitialized s = false ∧ executed s = [] ∧
  (∃ s', step T_owner s = Some s') ∧
  (worker s = W_lock → owner s = O_ctorUnlock ∧ step T_worker s = None).
Proof.
  intros Hs Hc.
  destruct (ctor_invariant _ Hs Hc) as (Hw & _ & Hm).
  destruct (lifecycle_invariant _ Hs) as (L1 & _).
  destruct (thread_invariant _ Hs) as [T1 _].
  pose proof (queue_lock_invariant _ Hs Owner) as Lo. simpl in Lo.
  pose proof (nothing_executed_before_init _ Hs) as Hpre.
  assert (mIsInitialized s = false) as Hflag.
  { rewrite L1. by destruct Hw as [-> | [-> | ->]]. }
  split_and!; [done|done|apply Hpre; by rewrite <-L1| |].
  - unfold step, step_owner.
    destruct (owner s) eqn:Ho; simpl in *; try done; eauto.
    rewrite Hm by done. eauto.
  - intros Hl. rewrite Hl in T1. simpl in T1.
    destruct (owner s) eqn:Ho; simpl in *; try done.
    split; [done|]. unfold step_worker. rewrite Hl.
    by rewrite (proj2 Lo eq_refl).
Qed.

(** ** Spurious wake-ups *)

(** X14 (l.89-91).  A spurious wake-up of the worker while there is nothing
    to do changes nothing: with the queue empty, [mRunning] true and
    [mThreadMutex] free, the woken worker reacquires the mutex, finds the
    predicate of the wait false and blocks again, in exactly the state it
    was woken from. *)
Theorem X14_worker_spurious_wakeup s :
  worker s = W_sleep → mThreadMutex s = None →
  mRunning s = true → mFunctionCalls s = [] →
  run [T_spurious_worker; T_worker; T_worker] s = Some s.
Proof.
  intros Hw Hm Hr Hq. destruct s. simpl in *. subst.
  reflexivity.
Qed.

(** X15 (l.98-101).  A spurious wake-up of a caller blocked in
    [waitUntilInitialized] before the flag is set changes nothing: with
    [mInitializedMutex] free, the woken caller reacquires it, finds the flag
    unset and blocks again, in exactly the state it was woken from. *)
Theorem X15_caller_spurious_wakeup s i r :
  callers s !! i = Some (C_initSleep r) → mInitializedMutex s = None →
  mIsInitialized s = false →
  run [T_spurious_caller i; T_caller i; T_caller i] s = Some s.
Proof.
  intros Hi Hm Hflag.
  assert (i < length (callers s))%nat as Hlt by (by eapply lookup_lt_Some).
  simpl. rewrite Hi. simpl. unfold step_caller at 1.
  unfold goto at 1 2. simpl. rewrite list_lookup_insert_eq by done.
  rewrite Hm. unfold step_caller. unfold goto at 2. simpl.
  rewrite list_lookup_insert_eq by (by rewrite length_insert).
  rewrite Hflag. unfold goto. simpl.
  rewrite !list_insert_insert_eq, list_insert_id by done.
  destruct s. simpl in *. by subst.
Qed.

End Dispatcher.

(** * A concrete resource

    A small instance of the interface, used to run the model on concrete
    schedules. *)

Module Toy.

Record toy := mkToy {
  toy_protected : bool;        (* the protected-context flag *)
  toy_textures : N;            (* number of texture names handed out *)
  toy_frames : list Z;         (* requests drawn, latest first *)
}.

(** [BAD_VALUE] of utils/Errors.h. *)
Definition BAD_VALUE : status_t := -22.

Definition toy_draw (req : Z) (e : toy) : toy * status_t :=
  if (req <? 0)%Z then (e, BAD_VALUE)
  else (mkToy (toy_protected e) (toy_textures e) (req :: toy_frames e), 0).

Global Instance toy_engine : RenderEngine := {|
  instance := toy;
  DrawRequest := Z;
  CleanupMode := bool;
  GraphicBuffer := N;
  re_primeCache e := e;
  re_dump result e := (e, result);
  re_genTextures count _ e :=
    mkToy (toy_protected e) (toy_textures e + count) (toy_frames e);
  re_deleteTextures count _ e :=
    mkToy (toy_protected e) (toy_textures e - count) (toy_frames e);
  re_mapExternalTextureBuffer _ _ e := e;
  re_unmapExternalTextureBuffer _ e := e;
  re_getMaxTextureSize _ := 4096%N;
  re_getMaxViewportDims _ := 4096%N;
  re_isProtected e := toy_protected e;
  re_supportsProtectedContent _ := true;
  re_useProtectedContext b e := (mkToy b (toy_textures e) (toy_frames e), true);
  re_cleanupPostRender _ e := (e, false);
  re_setViewportAndProjection _ _ e := e;
  re_drawLayers := toy_draw;
  re_cleanFramebufferCache e := e;
  re_getContextPriority e := (e, 0);
  re_supportsBackgroundBlur _ := false;
  re_onPrimaryDisplaySizeChanged _ e := e;
|}.

Definition toy_factory : @instance toy_engine := mkToy false 0 [].

Definition req (z : Z) : @DrawRequest toy_engine := z.

(** The constructor runs, the worker initialises and goes to sleep. *)
Definition startup : list label :=
  [T_owner; T_owner; T_owner] ++ replicate 9 T_worker.

(** Caller 0 calls [drawLayers 5]; the worker wakes and enters the task;
    caller 1 calls [primeCache] and reaches the lock of its push. *)
Definition task_running : list label :=
  startup ++
  [T_invoke 0 (drawLayers (req 5))] ++ replicate 4 (T_caller 0) ++
  replicate 4 T_worker ++
  [T_invoke 1 primeCache].

(** The task completes and [drawLayers] returns to caller 0; caller 1
    pushes; caller 0 reads [getMaxTextureSize]. *)
Definition call_returned : list label :=
  task_running ++
  [T_worker; T_caller 0; T_worker] ++
  replicate 4 (T_caller 1) ++
  [T_invoke 0 getMaxTextureSize] ++ replicate 4 (T_caller 0).

(** Caller 0 pushes [primeCache], caller 1 pushes [drawLayers 7] and blocks;
    the destructor runs before the worker gets the lock back. *)
Definition destroyed_early : list label :=
  startup ++
  [T_invoke 0 primeCache] ++ replicate 4 (T_caller 0) ++
  [T_invoke 1 (drawLayers (req 7))] ++ replicate 4 (T_caller 1) ++
  replicate 5 T_owner ++
  replicate 5 T_worker ++
  [T_owner].

Definition state_of (sched : list label) : state :=
  default (init 2) (run toy_factory sched (init 2)).

Lemma reachable_state_of sched :
  is_Some (run toy_factory sched (init 2)) → reachable toy_factory (state_of sched).
Proof.
  intros [s Hs]. exists 2%nat, sched. unfold state_of. by rewrite Hs.
Qed.

End Toy.

(** * The properties on concrete runs *)

Lemma reachable_task_running : reachable Toy.toy_factory (Toy.state_of Toy.task_running).
Proof. exists 2%nat, Toy.task_running. vm_compute. reflexivity. Defined.

Lemma reachable_call_returned : reachable Toy.toy_factory (Toy.state_of Toy.call_returned).
Proof. exists 2%nat, Toy.call_returned. vm_compute. reflexivity. Defined.

Lemma reachable_destroyed_early :
  reachable Toy.toy_factory (Toy.state_of Toy.destroyed_early).
Proof. exists 2%nat, Toy.destroyed_early. vm_compute. reflexivity. Defined.

Lemma C1_witness :
  reachable Toy.toy_factory (Toy.state_of Toy.call_returned) ∧
  serial (timeline (Toy.state_of Toy.call_returned)) ∧
  begun (timeline (Toy.state_of Toy.call_returned))
    ++ mFunctionCalls (Toy.state_of Toy.call_returned)
  = enqueued (Toy.state_of Toy.call_returned).
Proof.
  split; [exact reachable_call_returned|].
  apply (C1_serialized_fifo Toy.toy_factory _ reachable_call_returned).
Defined.

Lemma C2_witness :
  reachable Toy.toy_factory (Toy.state_of Toy.call_returned) ∧
  ∃ p k e,
    pushed_closure (drawLayers (Toy.req 5)) p = Some k ∧
    (k, e) ∈ executed (Toy.state_of Toy.call_returned) ∧
    (call_closure k e).2 = Some (p, V_status 0).
Proof.
  split; [exact reachable_call_returned|].
  destruct (C2_blocking_call Toy.toy_factory _ reachable_call_returned) as [H _].
  destruct (H (mkRet 0 (drawLayers (Toy.req 5)) (Some 0%nat) (V_status 0)))
    as (p & k & e & _ & ? & ? & ? & _).
  - vm_compute. by left.
  - reflexivity.
  - by exists p, k, e.
Defined.

Lemma C3_witness :
  reachable Toy.toy_factory (Toy.state_of Toy.call_returned) ∧
  mIsInitialized (Toy.state_of Toy.call_returned)
  = w_initialized (worker (Toy.state_of Toy.call_returned)).
Proof.
  split; [exact reachable_call_returned|].
  apply (C3_initialization_barrier Toy.toy_factory _ reachable_call_returned).
Defined.

Lemma C4_witness :
  reachable Toy.toy_factory (Toy.state_of Toy.destroyed_early) ∧
  dtor_log (Toy.state_of Toy.destroyed_early)
  = [D_clear (Some Owner); D_notify; D_join] ∧
  worker (Toy.state_of Toy.destroyed_early) = W_done ∧
  mRenderEngine (Toy.state_of Toy.destroyed_early) = None.
Proof.
  split; [exact reachable_destroyed_early|].
  destruct (C4_shutdown_sequence Toy.toy_factory _ reachable_destroyed_early)
    as (_ & _ & H & _).
  apply H. reflexivity.
Defined.

Lemma C5_witness :
  reachable Toy.toy_factory (Toy.state_of Toy.destroyed_early) ∧
  non_null (mRenderEngine (Toy.state_of Toy.destroyed_early))
  = w_engine (worker (Toy.state_of Toy.destroyed_early)).
Proof.
  split; [exact reachable_destroyed_early|].
  apply (C5_thread_confined_lifetime Toy.toy_factory _ reachable_destroyed_early).
Defined.

(** The worker is inside [drawLayers 5] and caller 1, at the lock of its
    push of [primeCache], cannot move. *)
Lemma C6_counterexample : ¬ push_never_waits_for_task Toy.toy_factory.
Proof.
  intros H.
  specialize (H _ reachable_task_running (L_drawLayers 0%nat (Toy.req 5))
                eq_refl 1%nat primeCache L_primeCache eq_refl).
  vm_compute in H. by destruct H.
Qed.

Lemma C6_witness :
  reachable Toy.toy_factory (Toy.state_of Toy.task_running) ∧
  mThreadMutex (Toy.state_of Toy.task_running) = Some Worker ∧
  step Toy.toy_factory (T_caller 1) (Toy.state_of Toy.task_running) = None.
Proof.
  split; [exact reachable_task_running|].
  destruct (C6_push_waits_only_for_lock Toy.toy_factory _ reachable_task_running)
    as (_ & _ & H & _).
  destruct (H (L_drawLayers 0%nat (Toy.req 5)) eq_refl) as [Hm Hc].
  split; [exact Hm|]. by apply (Hc 1%nat primeCache L_primeCache).
Defined.

Lemma C7_witness :
  reachable Toy.toy_factory (Toy.state_of Toy.call_returned) ∧
  ∃ p e, (L_drawLayers p (Toy.req 5), e)
           ∈ executed (Toy.state_of Toy.call_returned) ∧
         V_status 0 = V_status (re_drawLayers (Toy.req 5) e).2.
Proof.
  split; [exact reachable_call_returned|].
  destruct (C7_error_passthrough Toy.toy_factory _ reachable_call_returned)
    as (_ & H & _).
  apply (H (mkRet 0 (drawLayers (Toy.req 5)) (Some 0%nat) (V_status 0))).
  - vm_compute. by left.
  - reflexivity.
Defined.

Lemma C8_witness :
  reachable Toy.toy_factory (Toy.state_of Toy.call_returned) ∧
  ∀ i s', step Toy.toy_factory (T_invoke i isProtected)
               (Toy.state_of Toy.call_returned) = Some s' →
          mFunctionCalls s' = mFunctionCalls (Toy.state_of Toy.call_returned).
Proof.
  split; [exact reachable_call_returned|].
  destruct (C8_direct_read Toy.toy_factory _ reachable_call_returned) as (H & _).
  intros i s' Hstep. by apply (H i isProtected s').
Defined.

Lemma C9_witness :
  reachable Toy.toy_factory (Toy.state_of Toy.task_running) ∧
  mIsInitialized (Toy.state_of Toy.task_running) = true.
Proof.
  split; [exact reachable_task_running|].
  destruct (C9_no_task_before_initialization Toy.toy_factory _ reachable_task_running)
    as (H & _).
  by apply (H (L_drawLayers 0%nat (Toy.req 5))).
Defined.

Lemma C10_witness :
  reachable Toy.toy_factory (Toy.state_of Toy.destroyed_early) ∧
  mRunning (Toy.state_of Toy.destroyed_early) = false ∧
  mFunctionCalls (Toy.state_of Toy.destroyed_early)
  = [L_primeCache; L_drawLayers 0%nat (Toy.req 7)] ∧
  promises (Toy.state_of Toy.destroyed_early) !! 0%nat = Some None.
Proof.
  split; [exact reachable_destroyed_early|]. split; [reflexivity|].
  split; [reflexivity|].
  destruct (C10_pending_tasks_dropped Toy.toy_factory _
              reachable_destroyed_early eq_refl) as (_ & H & _).
  apply (H (L_drawLayers 0%nat (Toy.req 7))); [|reflexivity].
  vm_compute. right. by left.
Defined.

(** * Further concrete runs *)

Module Runs.

(** What follows [Toy.startup] in [Toy.call_returned]. *)
Definition after_startup : list label :=
  [T_invoke 0 (drawLayers (Toy.req 5))] ++ replicate 4 (T_caller 0) ++
  replicate 4 T_worker ++
  [T_invoke 1 primeCache] ++
  [T_worker; T_caller 0; T_worker] ++
  replicate 4 (T_caller 1) ++
  [T_invoke 0 getMaxTextureSize] ++ replicate 4 (T_caller 0).

(** Caller 0 has entered [primeCache] while the worker sleeps. *)
Definition prime_entered : list label :=
  Toy.startup ++ [T_invoke 0 primeCache].

(** Caller 0 is at the read of [isProtected], inside the lock of l.209. *)
Definition protected_read : list label :=
  Toy.startup ++ [T_invoke 0 isProtected] ++ replicate 4 (T_caller 0).

(** The constructor has spawned the thread and not yet returned. *)
Definition constructing : list label := [T_owner; T_owner].

(** Caller 0 blocks in [waitUntilInitialized] before the worker has run. *)
Definition early_wait : list label :=
  [T_owner; T_owner; T_owner] ++
  [T_invoke 0 waitUntilInitialized; T_caller 0; T_caller 0].

End Runs.

Lemma reachable_startup : reachable Toy.toy_factory (Toy.state_of Toy.startup).
Proof. exists 2%nat, Toy.startup. vm_compute. reflexivity. Defined.

Lemma run_after_startup :
  run Toy.toy_factory Runs.after_startup (Toy.state_of Toy.startup)
  = Some (Toy.state_of Toy.call_returned).
Proof. vm_compute. reflexivity. Defined.

Lemma X1_witness :
  reachable Toy.toy_factory (Toy.state_of Toy.call_returned) ∧
  mRenderEngine (Toy.state_of Toy.call_returned)
  = Some (replay [L_drawLayers 0%nat (Toy.req 5)] Toy.toy_factory) ∧
  ∃ n k,
    enqueued (Toy.state_of Toy.call_returned) !! n = Some k ∧
    pushed_closure (drawLayers (Toy.req 5)) 0%nat = Some k ∧
    (call_closure k
       (replay (take n (enqueued (Toy.state_of Toy.call_returned)))
          Toy.toy_factory)).2 = Some (0%nat, V_status 0).
Proof.
  split; [exact reachable_call_returned|].
  destruct (X1_sequential_replay Toy.toy_factory _ reachable_call_returned)
    as (H1 & _ & H3).
  split; [exact H1|].
  apply (H3 (mkRet 0 (drawLayers (Toy.req 5)) (Some 0%nat) (V_status 0))).
  - vm_compute. by left.
  - reflexivity.
Defined.

Lemma X2_witness :
  reachable Toy.toy_factory (Toy.state_of Toy.task_running) ∧
  worker (Toy.state_of Toy.task_running) = W_call (L_drawLayers 0%nat (Toy.req 5)) ∧
  promises (Toy.state_of Toy.task_running) !! 0%nat = Some None.
Proof.
  split; [exact reachable_task_running|]. split; [reflexivity|].
  destruct (X2_promise_set_once Toy.toy_factory _ reachable_task_running)
    as (_ & H & _).
  by apply (H (L_drawLayers 0%nat (Toy.req 5))).
Defined.


Lemma X4_witness :
  reachable Toy.toy_factory (Toy.state_of Toy.startup) ∧
  worker (Toy.state_of Toy.startup) = W_sleep ∧
  mThreadMutex (Toy.state_of Toy.startup) ≠ Some Worker.
Proof.
  split; [exact reachable_startup|]. split; [reflexivity|].
  by destruct (X4_no_lost_wakeup Toy.toy_factory _ reachable_startup eq_refl)
    as (H & _).
Defined.

Lemma X5_witness :
  reachable Toy.toy_factory (Toy.state_of Toy.call_returned) ∧
  L_primeCache ∈ enqueued (Toy.state_of Toy.call_returned).
Proof.
  split; [exact reachable_call_returned|].
  destruct (X5_return_after_push Toy.toy_factory _ reachable_call_returned)
    as (H & _).
  apply (H (mkRet 1 primeCache None V_void)); [|reflexivity].
  vm_compute. right. by left.
Defined.

Lemma X6_witness :
  reachable Toy.toy_factory (Toy.state_of Toy.startup) ∧
  run Toy.toy_factory Runs.after_startup (Toy.state_of Toy.startup)
  = Some (Toy.state_of Toy.call_returned) ∧
  (length (promises (Toy.state_of Toy.startup)) ≤ 0)%nat ∧
  ∃ n k,
    enqueued (Toy.state_of Toy.call_returned) !! n = Some k ∧
    pushed_closure (drawLayers (Toy.req 5)) 0%nat = Some k ∧
    enqueued (Toy.state_of Toy.startup)
      `prefix_of` take n (enqueued (Toy.state_of Toy.call_returned)) ∧
    (call_closure k
       (replay (take n (enqueued (Toy.state_of Toy.call_returned)))
          Toy.toy_factory)).2 = Some (0%nat, V_status 0).
Proof.
  split; [exact reachable_startup|]. split; [exact run_after_startup|].
  split; [vm_compute; lia|].
  apply (X6_program_order Toy.toy_factory _ _ _
           (mkRet 0 (drawLayers (Toy.req 5)) (Some 0%nat) (V_status 0)) 0%nat
           reachable_startup run_after_startup).
  - vm_compute. lia.
  - vm_compute. by left.
  - reflexivity.
Defined.

Lemma X7_witness :
  callers (Toy.state_of Runs.prime_entered) !! 0%nat
  = Some (C_lock primeCache L_primeCache) ∧
  mThreadMutex (Toy.state_of Runs.prime_entered) = None ∧
  ∃ s', run Toy.toy_factory (replicate 4 (T_caller 0))
          (Toy.state_of Runs.prime_entered) = Some s' ∧
        callers s' !! 0%nat = Some C_idle ∧
        mFunctionCalls s' = [L_primeCache] ∧
        executed s' = [].
Proof.
  split; [reflexivity|]. split; [reflexivity|].
  destruct (X7_fire_and_forget Toy.toy_factory (Toy.state_of Runs.prime_entered)
              0%nat primeCache L_primeCache eq_refl eq_refl eq_refl)
    as (s' & H1 & H2 & _ & H4 & _ & H6 & _).
  exists s'. split; [exact H1|]. split; [exact H2|]. split; [exact H4|exact H6].
Defined.

Lemma X8_witness :
  reachable Toy.toy_factory (Toy.state_of Toy.task_running) ∧
  mThreadMutex (Toy.state_of Toy.task_running) = Some Worker ∧
  ∀ t, in_queue_section (Toy.state_of Toy.task_running) t = true → t = Worker.
Proof.
  split; [exact reachable_task_running|]. split; [reflexivity|].
  destruct (X8_mutual_exclusion Toy.toy_factory _ reachable_task_running)
    as (_ & _ & H & _).
  intros t Ht. by apply (H t Worker).
Defined.

Lemma X9_witness :
  reachable Toy.toy_factory (Toy.state_of Toy.task_running) ∧
  owner (Toy.state_of Toy.task_running) = O_alive ∧
  callers (Toy.state_of Toy.task_running) !! 0%nat
  = Some (C_get (drawLayers (Toy.req 5)) 0%nat) ∧
  ∃ sched s' v,
    Forall (λ l, quiet l = true) sched ∧
    run Toy.toy_factory sched (Toy.state_of Toy.task_running) = Some s' ∧
    callers s' !! 0%nat = Some C_idle ∧
    mkRet 0 (drawLayers (Toy.req 5)) (Some 0%nat) v ∈ returned s' ∧
    promises s' !! 0%nat = Some (Some v).
Proof.
  split; [exact reachable_task_running|]. split; [reflexivity|].
  split; [reflexivity|].
  exact (X9_blocking_call_completes Toy.toy_factory _ 0%nat
           (drawLayers (Toy.req 5)) 0%nat reachable_task_running
           eq_refl eq_refl).
Defined.

Lemma X10_witness :
  reachable Toy.toy_factory (Toy.state_of Toy.task_running) ∧
  o_constructed (owner (Toy.state_of Toy.task_running)) = true ∧
  ∃ sched s',
    Forall (λ l, no_new_call l = true) sched ∧
    run Toy.toy_factory sched (Toy.state_of Toy.task_running) = Some s' ∧
    owner s' = O_done ∧ worker s' = W_done ∧ mRenderEngine s' = None ∧
    mRunning s' = false ∧
    dtor_log s' = [D_clear (Some Owner); D_notify; D_join].
Proof.
  split; [exact reachable_task_running|]. split; [reflexivity|].
  exact (X10_destructor_completes Toy.toy_factory _ reachable_task_running
           eq_refl).
Defined.

Lemma reachable_protected_read :
  reachable Toy.toy_factory (Toy.state_of Runs.protected_read).
Proof. exists 2%nat, Runs.protected_read. vm_compute. reflexivity. Defined.

Lemma reachable_constructing :
  reachable Toy.toy_factory (Toy.state_of Runs.constructing).
Proof. exists 2%nat, Runs.constructing. vm_compute. reflexivity. Defined.

Lemma X11_witness :
  reachable Toy.toy_factory (Toy.state_of Runs.protected_read) ∧
  callers (Toy.state_of Runs.protected_read) !! 0%nat
  = Some (C_readLocked isProtected) ∧
  worker (Toy.state_of Runs.protected_read) = W_sleep ∧
  ∀ s', step Toy.toy_factory (T_caller 0) (Toy.state_of Runs.protected_read)
        = Some s' →
        callers s' !! 0%nat = Some (C_readUnlock isProtected (V_bool false)).
Proof.
  split; [exact reachable_protected_read|]. split; [reflexivity|].
  split; [reflexivity|].
  destruct (X11_isProtected_at_rest Toy.toy_factory _ 0%nat isProtected
              reachable_protected_read eq_refl) as (_ & _ & H).
  exact H.
Defined.

Lemma X12_witness :
  reachable Toy.toy_factory (Toy.state_of Runs.protected_read) ∧
  owner (Toy.state_of Runs.protected_read) = O_alive ∧
  callers (Toy.state_of Runs.protected_read) !! 0%nat
  = Some (C_readLocked isProtected) ∧
  ∃ sched s',
    Forall (λ l, quiet l = true) sched ∧
    run Toy.toy_factory sched (Toy.state_of Runs.protected_read) = Some s' ∧
    callers s' !! 0%nat = Some C_idle ∧
    ∃ v, mkRet 0 isProtected None v ∈ returned s'.
Proof.
  split; [exact reachable_protected_read|]. split; [reflexivity|].
  split; [reflexivity|].
  exact (X12_accessor_completes Toy.toy_factory _ 0%nat
           (C_readLocked isProtected) isProtected reachable_protected_read
           eq_refl eq_refl eq_refl eq_refl).
Defined.

Lemma X13_witness :
  reachable Toy.toy_factory (Toy.state_of Runs.constructing) ∧
  o_constructed (owner (Toy.state_of Runs.constructing)) = false ∧
  mIsInitialized (Toy.state_of Runs.constructing) = false ∧
  ∃ s', step Toy.toy_factory T_owner (Toy.state_of Runs.constructing) = Some s'.
Proof.
  split; [exact reachable_constructing|]. split; [reflexivity|].
  destruct (X13_constructor_fence Toy.toy_factory _ reachable_constructing eq_refl)
    as (_ & H1 & _ & H2 & _).
  split; [exact H1|exact H2].
Defined.

Lemma X14_witness :
  worker (Toy.state_of Toy.startup) = W_sleep ∧
  mThreadMutex (Toy.state_of Toy.startup) = None ∧
  mRunning (Toy.state_of Toy.startup) = true ∧
  mFunctionCalls (Toy.state_of Toy.startup) = [] ∧
  run Toy.toy_factory [T_spurious_worker; T_worker; T_worker]
    (Toy.state_of Toy.startup)
  = Some (Toy.state_of Toy.startup).
Proof.
  split; [reflexivity|]. split; [reflexivity|]. split; [reflexivity|].
  split; [reflexivity|].
  exact (X14_worker_spurious_wakeup Toy.toy_factory (Toy.state_of Toy.startup)
           eq_refl eq_refl eq_refl eq_refl).
Defined.

Lemma X15_witness :
  callers (Toy.state_of Runs.early_wait) !! 0%nat
  = Some (C_initSleep waitUntilInitialized) ∧
  mInitializedMutex (Toy.state_of Runs.early_wait) = None ∧
  mIsInitialized (Toy.state_of Runs.early_wait) = false ∧
  run Toy.toy_factory [T_spurious_caller 0; T_caller 0; T_caller 0]
    (Toy.state_of Runs.early_wait)
  = Some (Toy.state_of Runs.early_wait).
Proof.
  split; [reflexivity|]. split; [reflexivity|]. split; [reflexivity|].
  exact (X15_caller_spurious_wakeup Toy.toy_factory
           (Toy.state_of Runs.early_wait) 0%nat waitUntilInitialized
           eq_refl eq_refl eq_refl).
Defined.
